(** * online-service: the sync merge, the worker's emissions and the status averages

    The sync service ([Sync]) is embedded from its source, the listener of
    [sync-service.ts] with [getRule], [setRules] and [isJobFinished].  A thrown
    [TypeError] is an explicit outcome, and the durable record is the one the
    listener hands to [database.updateJob].

    The worker ([Worker]) and the status aggregator ([Status]) are present
    through their tests only; their definitions follow sections 4.1 and 4.4 of
    the specification and are marked as such, and the tests are replayed on
    them.

    The rotation of the backup service ([Backup]: [removeOldBackups],
    [copyMostRecentBlob]) and the scan runner ([Runner]: [createErrorResult],
    [run]) are embedded from their sources as well. *)

From stdpp Require Import base decidable option list strings gmap sorting.
From Stdlib Require Import ZArith QArith.

#[local] Open Scope Z_scope.
#[local] Open Scope string_scope.
#[local] Open Scope list_scope.

(** ** Enumerations

    [enums/status] is imported by the sync service and by the worker tests;
    the values are those of section 3 of the specification. *)

Module JobStatus.
Inductive t := pending | started | finished | error.

#[global] Instance eq_dec : EqDecision t.
Proof. solve_decision. Defined.
End JobStatus.

Module RuleStatus.
Inductive t := pending | pass | warning | error | off.

#[global] Instance eq_dec : EqDecision t.
Proof. solve_decision. Defined.
End RuleStatus.

(** Severity of an engine message, ordered [error > warning > pass]. *)
Module Severity.
Inductive t := pass | warning | error.

#[global] Instance eq_dec : EqDecision t.
Proof. solve_decision. Defined.
End Severity.

(** An engine message [{hintId, message, location?, severity?}]; the synthetic
    entries built by the worker carry a [message] only. *)
Module Problem.
Record t := mk {
  hintId : option string;
  message : string;
  location : option (Z * Z);
  severity : option Severity.t
}.

#[global] Instance eq_dec : EqDecision t.
Proof. solve_decision. Defined.
End Problem.

(** ** Sync service *)

Module Sync.

Module Rule.
Record t := mk {
  name : string;
  status : RuleStatus.t;
  messages : list Problem.t
}.

#[global] Instance eq_dec : EqDecision t.
Proof. solve_decision. Defined.
End Rule.

Module IJob.
Record t := mk {
  id : Z;
  status : JobStatus.t;
  rules : list Rule.t;
  started : option Z;
  finished : option Z;
  sonarVersion : option string;
  error : option string;
  part : nat;
  totalParts : nat
}.

#[global] Instance eq_dec : EqDecision t.
Proof. solve_decision. Defined.

Definition setStatus (v : JobStatus.t) (j : t) : t :=
  mk (id j) v (rules j) (started j) (finished j) (sonarVersion j) (error j)
     (part j) (totalParts j).
Definition setRules (v : list Rule.t) (j : t) : t :=
  mk (id j) (status j) v (started j) (finished j) (sonarVersion j) (error j)
     (part j) (totalParts j).
Definition setStarted (v : option Z) (j : t) : t :=
  mk (id j) (status j) (rules j) v (finished j) (sonarVersion j) (error j)
     (part j) (totalParts j).
Definition setFinished (v : option Z) (j : t) : t :=
  mk (id j) (status j) (rules j) (started j) v (sonarVersion j) (error j)
     (part j) (totalParts j).
Definition setSonarVersion (v : option string) (j : t) : t :=
  mk (id j) (status j) (rules j) (started j) (finished j) v (error j)
     (part j) (totalParts j).
Definition setError (v : option string) (j : t) : t :=
  mk (id j) (status j) (rules j) (started j) (finished j) (sonarVersion j) v
     (part j) (totalParts j).
End IJob.

(** [rules.find(rule => rule.name === name)]: the first rule of that name
    and its position, [None] for [undefined]. *)
Definition getRule (name : string) (rules : list Rule.t) : option (nat * Rule.t) :=
  list_find (λ rule, Rule.name rule = name) rules.

(** One iteration of the loop of [setRules].  [dbJobRule] is a reference
    into [dbJob.rules], so the two assignments rewrite the rule at the
    position found; reading [status] of [undefined] throws ([None]). *)
Definition setRule (dbRules : list Rule.t) (rule : Rule.t) : option (list Rule.t) :=
  match getRule (Rule.name rule) dbRules with
  | None => None
  | Some (i, dbJobRule) =>
      if decide (Rule.status dbJobRule = RuleStatus.pending)
      then Some (<[i := Rule.mk (Rule.name dbJobRule) (Rule.status rule)
                                 (Rule.messages rule)]> dbRules)
      else Some dbRules
  end.

(** [for (const rule of job.rules) ...] over the rules of the message. *)
Fixpoint setRules (dbRules : list Rule.t) (rules : list Rule.t) : option (list Rule.t) :=
  match rules with
  | [] => Some dbRules
  | rule :: rest =>
      match setRule dbRules rule with
      | None => None
      | Some dbRules' => setRules dbRules' rest
      end
  end.

(** [job.rules.every(rule => rule.status !== RuleStatus.pending)] *)
Definition isJobFinished (job : IJob.t) : bool :=
  forallb (λ rule, bool_decide (Rule.status rule ≠ RuleStatus.pending)) (IJob.rules job).

(** What a run of the listener does to the durable record. *)
Inductive Outcome :=
| Updated (dbJob : IJob.t)   (* [database.updateJob(dbJob)] was reached *)
| Skipped                    (* early [return], nothing written *)
| Thrown.                    (* [TypeError] before [database.updateJob] *)

(** The listener once [database.getJob] returned a record. *)
Definition merge (dbJob job : IJob.t) : Outcome :=
  if decide (IJob.status dbJob = JobStatus.error) then Skipped
  else if decide (IJob.status job = JobStatus.started) then
    let dbJob1 :=
      if decide (IJob.status dbJob ≠ JobStatus.started)
      then IJob.setSonarVersion (IJob.sonarVersion job)
             (IJob.setStarted (IJob.started job) dbJob)
      else dbJob in
    let dbJob2 :=
      if decide (IJob.status dbJob1 = JobStatus.pending)
      then IJob.setStatus (IJob.status job) dbJob1
      else dbJob1 in
    Updated dbJob2
  else
    match setRules (IJob.rules dbJob) (IJob.rules job) with
    | None => Thrown
    | Some dbRules =>
        let dbJob1 := IJob.setRules dbRules dbJob in
        if decide (IJob.status job = JobStatus.error) then
          Updated (IJob.setError (IJob.error job)
                     (IJob.setFinished (IJob.finished job)
                        (IJob.setStatus (IJob.status job) dbJob1)))
        else if isJobFinished dbJob1 then
          Updated (IJob.setStatus (IJob.status job)
                     (IJob.setFinished (IJob.finished job) dbJob1))
        else Updated dbJob1
    end.

(** [listener]: [getJob] is the result of [database.getJob(job.id)]. *)
Definition listener (getJob : option IJob.t) (job : IJob.t) : Outcome :=
  match getJob with
  | None => Skipped
  | Some dbJob => merge dbJob job
  end.

(** The durable record after the listener ran on a stored [dbJob]. *)
Definition sync (dbJob job : IJob.t) : IJob.t :=
  match listener (Some dbJob) job with
  | Updated dbJob' => dbJob'
  | Skipped | Thrown => dbJob
  end.

(** The durable record after a sequence of deliveries. *)
Definition syncAll (dbJob : IJob.t) (jobs : list IJob.t) : IJob.t :=
  foldl sync dbJob jobs.

(** Every rule name of the message names a rule of the durable record. *)
Definition rulesKnown (dbRules rules : list Rule.t) : Prop :=
  Forall (λ rule, is_Some (getRule (Rule.name rule) dbRules)) rules.

#[global] Instance rulesKnown_dec dbRules rules : Decision (rulesKnown dbRules rules).
Proof. unfold rulesKnown. apply _. Defined.

Definition nonPending (rule : Rule.t) : Prop :=
  Rule.status rule ≠ RuleStatus.pending.

(** The invariant of the durable record: a finished job has no pending rule. *)
Definition settled (j : IJob.t) : Prop :=
  IJob.status j = JobStatus.finished → Forall nonPending (IJob.rules j).

(** Used by the proofs: what the loop of [setRules] does to one durable
    rule [h] when it meets the message rule [r], and over a whole message. *)
Definition absorb (h r : Rule.t) : Rule.t :=
  if decide (Rule.name h = Rule.name r) then
    if decide (Rule.status h = RuleStatus.pending)
    then Rule.mk (Rule.name h) (Rule.status r) (Rule.messages r)
    else h
  else h.

Definition absorbAll (h : Rule.t) (rs : list Rule.t) : Rule.t :=
  foldl absorb h rs.

Definition others (h : Rule.t) (rs : list Rule.t) : list Rule.t :=
  filter (λ r, Rule.name r ≠ Rule.name h) rs.

End Sync.

(** ** Worker service *)

(** [HintStatus], the later name of [RuleStatus]. *)
Module HintStatus.
Inductive t := pending | pass | warning | error | off.

#[global] Instance eq_dec : EqDecision t.
Proof. solve_decision. Defined.
End HintStatus.

Module Worker.

(** A hint of a job, as the worker tests build it. *)
Module Hint.
Record t := mk {
  name : string;
  status : HintStatus.t;
  messages : list Problem.t;
  category : option string
}.

#[global] Instance eq_dec : EqDecision t.
Proof. solve_decision. Defined.

Definition setStatus (v : HintStatus.t) (h : t) : t :=
  mk (name h) v (messages h) (category h).
Definition setMessages (v : list Problem.t) (h : t) : t :=
  mk (name h) (status h) v (category h).
End Hint.

(** A value of the [hints] object of a configuration bundle: a literal such
    as ['error'], or a tuple such as [['off', {}]]. *)
Inductive ConfigValue :=
| CStr (s : string)
| CObj (fields : list (string * string)).

Inductive HintConfig :=
| Literal (s : string)
| Tuple (elems : list ConfigValue).

(** The [error] field of a result message: the engine's payload as the
    child sent it, or an object such as [{message: 'TIMEOUT'}]. *)
Inductive ErrorPayload :=
| Raw (text : string)
| Obj (message : string).

#[global] Instance ErrorPayload_eq_dec : EqDecision ErrorPayload.
Proof. solve_decision. Defined.

(** A sub-job and a result message, as the worker tests build and read
    them. *)
Module IJob.
Record t := mk {
  id : Z;
  url : string;
  status : JobStatus.t;
  hints : list Hint.t;
  config : list (gmap string HintConfig);
  partInfo : nat * nat;
  maxRunTime : option nat;
  started : option Z;
  finished : option Z;
  error : option ErrorPayload
}.

Definition setStatus (v : JobStatus.t) (j : t) : t :=
  mk (id j) (url j) v (hints j) (config j) (partInfo j) (maxRunTime j)
     (started j) (finished j) (error j).
Definition setHints (v : list Hint.t) (j : t) : t :=
  mk (id j) (url j) (status j) v (config j) (partInfo j) (maxRunTime j)
     (started j) (finished j) (error j).
Definition setStarted (v : option Z) (j : t) : t :=
  mk (id j) (url j) (status j) (hints j) (config j) (partInfo j) (maxRunTime j)
     v (finished j) (error j).
Definition setFinished (v : option Z) (j : t) : t :=
  mk (id j) (url j) (status j) (hints j) (config j) (partInfo j) (maxRunTime j)
     (started j) v (error j).
Definition setError (v : option ErrorPayload) (j : t) : t :=
  mk (id j) (url j) (status j) (hints j) (config j) (partInfo j) (maxRunTime j)
     (started j) (finished j) v.
End IJob.

(** [JobResult] of the Scan Runner ([webhint-runner.ts]): what the child
    sends back over IPC. *)
Record JobResult := mkJobResult {
  error : option string;
  messages : option (list Problem.t);
  ok : bool
}.

(** Modelled from the spec: the first of the events the worker awaits for a
    sub-job (section 4.1, step 3, and the state machine of 4.1.4); the
    worker itself, [worker-service.ts], is not among the sources. *)
Inductive ChildEvent :=
| Message (result : JobResult)   (* the child answered *)
| Crash (cause : string)         (* spawn error or exit before a message *)
| Deadline.                      (* the [maxRunTime] timer fired first *)

(** Modelled from the spec: the single configuration bundle of a sub-job,
    [config[0].hints]; a bundle without [hints] mentions no hint. *)
Definition bundle (job : IJob.t) : gmap string HintConfig :=
  default ∅ (head (IJob.config job)).

(** Modelled from the spec: a bundle sets a hint to [off] by the literal
    ["off"] or by a tuple whose first element is ["off"] (4.1.1). *)
Definition isOff (c : HintConfig) : bool :=
  match c with
  | Literal s => bool_decide (s = "off")
  | Tuple (CStr s :: _) => bool_decide (s = "off")
  | Tuple _ => false
  end.

(** Modelled from the spec: the severity a bundle configures for a hint,
    the literal or the first element of the tuple; [worker-service.ts] is
    not among the sources. *)
Definition parseSeverity (s : string) : option Severity.t :=
  if decide (s = "error") then Some Severity.error
  else if decide (s = "warning") then Some Severity.warning
  else None.

(** Modelled from the spec: the severity configured for a hint, [pass] when
    the bundle names none. *)
Definition configuredSeverity (c : option HintConfig) : Severity.t :=
  match c with
  | Some (Literal s) | Some (Tuple (CStr s :: _)) => default Severity.pass (parseSeverity s)
  | _ => Severity.pass
  end.

(** Modelled from the spec: the order [error > warning > pass] of 4.1.1. *)
Definition maxSeverity (a b : Severity.t) : Severity.t :=
  match a, b with
  | Severity.error, _ | _, Severity.error => Severity.error
  | Severity.warning, _ | _, Severity.warning => Severity.warning
  | _, _ => Severity.pass
  end.

(** Modelled from the spec: the hint status a severity stands for. *)
Definition severityStatus (s : Severity.t) : HintStatus.t :=
  match s with
  | Severity.pass => HintStatus.pass
  | Severity.warning => HintStatus.warning
  | Severity.error => HintStatus.error
  end.

(** Modelled from the spec: the engine messages bucketed by [hintId]. *)
Definition bucket (name : string) (msgs : list Problem.t) : list Problem.t :=
  filter (λ m, Problem.hintId m = Some name) msgs.

(** Modelled from the spec: the highest severity of a bucket under
    [error > warning > pass].  A message that states no severity counts with
    the one the bundle configures for the hint, as the worker tests expect
    ([axe: 'warning'] with two bare messages resolves to [warning]). *)
Definition highestSeverity (dflt : Severity.t) (msgs : list Problem.t) : Severity.t :=
  foldr (λ m acc, maxSeverity (default dflt (Problem.severity m)) acc) Severity.pass msgs.

(** Modelled from the spec: hint status resolution on [ok: true] (4.1.1). *)
Definition resolveHint (cfg : gmap string HintConfig) (msgs : list Problem.t)
    (h : Hint.t) : Hint.t :=
  let c := cfg !! Hint.name h in
  if bool_decide (isOff <$> c = Some true) then Hint.setStatus HintStatus.off h
  else
    match bucket (Hint.name h) msgs with
    | [] => if c is Some _ then Hint.setStatus HintStatus.pass h else h
    | b => Hint.setMessages b
             (Hint.setStatus (severityStatus (highestSeverity (configuredSeverity c) b)) h)
    end.

(** Modelled from the spec: a synthetic message, which carries a text and
    nothing else (4.1.2, 4.1.3). *)
Definition syntheticMessage (text : string) : Problem.t :=
  Problem.mk None text None None.

(** Modelled from the spec: the error case [ok: false] (4.1.2). *)
Definition errorHint (cfg : gmap string HintConfig) (text : string) (h : Hint.t) : Hint.t :=
  match cfg !! Hint.name h with
  | Some c =>
      if isOff c then Hint.setStatus HintStatus.off h
      else Hint.setMessages [syntheticMessage text] (Hint.setStatus HintStatus.error h)
  | None => h
  end.

(** Modelled from the spec: on the deadline every hint still pending is
    marked [pass], without findings (4.1, step 5). *)
Definition timeoutHint (h : Hint.t) : Hint.t :=
  if decide (Hint.status h = HintStatus.pending)
  then Hint.setStatus HintStatus.pass h else h.

(** Modelled from the spec: step 1, the [started] result with the sub-job's
    hints as they came and [started = now()]. *)
Definition startedMessage (job : IJob.t) (now : Z) : IJob.t :=
  IJob.setStarted (Some now) (IJob.setStatus JobStatus.started job).

(** Modelled from the spec: the terminal result of a scan that failed, with
    the error text [text] (4.1.2 and section 7). *)
Definition failed (job : IJob.t) (text : string) (now : Z) : IJob.t :=
  IJob.setError (Some (Raw text))
    (IJob.setFinished (Some now)
       (IJob.setStatus JobStatus.error
          (IJob.setHints (errorHint (bundle job) text <$> IJob.hints job) job))).

(** Modelled from the spec: steps 4 and 5, the terminal result before the
    oversize policy is applied. *)
Definition terminalMessage (job : IJob.t) (ev : ChildEvent) (now : Z) : IJob.t :=
  match ev with
  | Message r =>
      if ok r then
        IJob.setFinished (Some now)
          (IJob.setStatus JobStatus.finished
             (IJob.setHints
                (resolveHint (bundle job) (default [] (messages r)) <$> IJob.hints job) job))
      else failed job (default "" (error r)) now
  | Crash cause => failed job cause now
  | Deadline =>
      IJob.setError (Some (Obj "TIMEOUT"))
        (IJob.setFinished (Some now)
           (IJob.setStatus JobStatus.finished
              (IJob.setHints (timeoutHint <$> IJob.hints job) job)))
  end.

(** Modelled from the spec: the single entry that replaces the messages of
    an oversize hint (4.1.3 (3)); the status of the hint is kept. *)
Definition tooManyErrors : Problem.t :=
  syntheticMessage
    "This hint has too many errors, please use webhint locally for more details".

(** Modelled from the spec: the replacement itself. *)
Definition collapseHint (h : Hint.t) : Hint.t :=
  Hint.setMessages [tooManyErrors] h.

(** Modelled from the spec: the answer of the results bus to one send;
    only the oversize signal (HTTP 413) is told apart, transient failures
    and their back-off are left out. *)
Inductive SendResult := Ok | Oversize.

#[global] Instance SendResult_eq_dec : EqDecision SendResult.
Proof. solve_decision. Defined.

(** Modelled from the spec: one call of [sendMessage] on the results queue
    and how the bus took it. *)
Record Emission := mkEmission {
  payload : IJob.t;
  result : SendResult
}.

Section Emit.
(** The bus limit and the serialized sizes the worker measures. *)
Variable MAX_MESSAGE_SIZE : nat.
Variable jobSize : IJob.t → nat.
Variable messagesSize : list Problem.t → nat.
Variable bus : IJob.t → SendResult.

(** Modelled from the spec: 4.1.3 (3), the proactive replacement of the
    messages of a hint that alone exceed the limit. *)
Definition collapseIfOversize (h : Hint.t) : Hint.t :=
  if decide (MAX_MESSAGE_SIZE < messagesSize (Hint.messages h))%nat
  then collapseHint h else h.

(** Modelled from the spec: the terminal result after that replacement,
    which comes before the measurement. *)
Definition proactive (msg : IJob.t) : IJob.t :=
  IJob.setHints (collapseIfOversize <$> IJob.hints msg) msg.

(** Modelled from the spec: a hint goes into the first group whose message
    still fits with it; an empty group takes any hint. *)
Definition fits (msg : IJob.t) (group : list Hint.t) (h : Hint.t) : bool :=
  match group with
  | [] => true
  | _ => bool_decide (jobSize (IJob.setHints (group ++ [h]) msg) ≤ MAX_MESSAGE_SIZE)%nat
  end.

(** Modelled from the spec: first-fit of one hint over the groups opened
    so far; a hint that fits nowhere opens a group. *)
Fixpoint place (msg : IJob.t) (groups : list (list Hint.t)) (h : Hint.t)
    : list (list Hint.t) :=
  match groups with
  | [] => [[h]]
  | g :: gs => if fits msg g h then (g ++ [h]) :: gs else g :: place msg gs h
  end.

(** Modelled from the spec: 4.1.3 (2), greedy first-fit by serialized
    size, over the hints in their order. *)
Definition partitionHints (msg : IJob.t) (hs : list Hint.t) : list (list Hint.t) :=
  foldl (place msg) [[]] hs.

(** Modelled from the spec: 4.1.3 (1)-(3), the messages the terminal
    result is emitted as. *)
Definition prepare (msg : IJob.t) : list IJob.t :=
  let msg' := proactive msg in
  if decide (jobSize msg' ≤ MAX_MESSAGE_SIZE)%nat then [msg']
  else (λ g, IJob.setHints g msg') <$> partitionHints msg' (IJob.hints msg').

(** Modelled from the spec: the reactive replacement after an oversize
    rejection collapses the messages of every hint that carries some. *)
Definition collapseMessage (msg : IJob.t) : IJob.t :=
  IJob.setHints
    ((λ h, if Hint.messages h is [] then h else collapseHint h) <$> IJob.hints msg) msg.

(** Modelled from the spec: one call of [sendMessage], with the answer of
    the bus. *)
Definition send (msg : IJob.t) : Emission :=
  mkEmission msg (bus msg).

(** Modelled from the spec: 4.1.3 (3)-(4), one resend after an oversize
    rejection, final whatever the bus answers. *)
Definition sendTerminal (msg : IJob.t) : list Emission :=
  match bus msg with
  | Ok => [send msg]
  | Oversize => [send msg; send (collapseMessage msg)]
  end.

(** Modelled from the spec: the calls of [sendMessage] the worker makes
    for one sub-job, in order (4.1, steps 1 to 5). *)
Definition processSubJob (job : IJob.t) (ev : ChildEvent) (t0 t1 : Z) : list Emission :=
  send (startedMessage job t0)
    :: (prepare (terminalMessage job ev t1) ≫= sendTerminal).

End Emit.

End Worker.

(** ** Status aggregator *)

Module Status.

(** Modelled from the spec: the fields of a job the aggregator reads
    (section 3); dates are milliseconds since the epoch. *)
Module Job.
Record t := mk {
  queued : option Z;
  started : option Z;
  finished : option Z;
  status : JobStatus.t
}.
End Job.

(** [IStatus], with the shape of [validStatus] in the status tests. *)
Module Average.
Record t := mk { finish : option Q; start : option Q }.
End Average.

Module Finished.
Record t := mk { error : nat; success : nat }.
End Finished.

Module Scans.
Record t := mk { created : nat; finished : Finished.t; started : nat }.
End Scans.

Module IStatus.
Record t := mk {
  average : Average.t;
  date : Z;
  queues : option nat;
  scans : Scans.t
}.
End IStatus.

(** Modelled from the spec: a quarter of an hour, in milliseconds, and the
    buckets [[from, to)] of section 4.4. *)
Definition quarter : Z := 15 * 60 * 1000.

Definition inBucket (d : option Z) (from to : Z) : bool :=
  match d with
  | Some t => bool_decide (from ≤ t < to)
  | None => false
  end.

(** Modelled from the spec: [database.getJobsByDate(field, from, to)], the
    jobs whose [field] timestamp falls in the bucket; the database module
    is not among the sources. *)
Definition getJobsByDate (field : Job.t → option Z) (from to : Z)
    (jobs : list Job.t) : list Job.t :=
  filter (λ j, inBucket (field j) from to) jobs.

(** Modelled from the spec: the difference of two stamps, when the job has
    both. *)
Definition elapsed (later earlier : option Z) : option Z :=
  match later, earlier with
  | Some a, Some b => Some (a - b)
  | _, _ => None
  end.

Definition total (l : list Z) : Z := foldr Z.add 0 l.

(** Modelled from the spec: the arithmetic mean, as a fraction in lowest
    terms; there is none of no value. *)
Definition mean (l : list Z) : option Q :=
  match l with
  | [] => None
  | _ => Some (Qred (total l # Pos.of_nat (length l)))
  end.

(** Modelled from the spec: [started - queued] and [finished - started] of
    the jobs. *)
Definition startDelays (jobs : list Job.t) : list Z :=
  omap (λ j, elapsed (Job.started j) (Job.queued j)) jobs.

Definition runTimes (jobs : list Job.t) : list Z :=
  omap (λ j, elapsed (Job.finished j) (Job.started j)) jobs.

(** Modelled from the spec: the aggregate of the bucket that starts at
    [from] (section 4.4); [status.ts] is not among the sources, only its
    tests are. *)
Definition bucketStatus (jobs : list Job.t) (from : Z) : IStatus.t :=
  let to := from + quarter in
  let jobsCreated := getJobsByDate Job.queued from to jobs in
  let jobsStarted := getJobsByDate Job.started from to jobs in
  let jobsFinished := getJobsByDate Job.finished from to jobs in
  let failed := filter (λ j, Job.status j = JobStatus.error) jobsFinished in
  IStatus.mk
    (Average.mk (mean (runTimes jobsFinished)) (mean (startDelays jobsFinished)))
    from
    None
    (Scans.mk (length jobsCreated)
       (Finished.mk (length failed) (length jobsFinished - length failed))
       (length jobsStarted)).

(** Modelled from the spec: the starts of the completed buckets that follow
    the most recent aggregate, dated [last]. *)
Definition completedBuckets (last now : Z) : list Z :=
  (λ k, last + Z.of_nat k * quarter) <$> seq 0 (Z.to_nat ((now - last) / quarter)).

(** Modelled from the spec: the aggregates [updateStatuses] adds, one for
    each completed bucket it processes. *)
Definition updateStatuses (last now : Z) (jobs : list Job.t) : list IStatus.t :=
  bucketStatus jobs <$> completedBuckets last now.

End Status.

(** ** Notions used to state further properties of the sync merge *)

Module SyncExtra.
Import Sync.

(** The life cycle of a job: pending, started, finished, error. *)
Definition rank (s : JobStatus.t) : nat :=
  match s with
  | JobStatus.pending => 0
  | JobStatus.started => 1
  | JobStatus.finished => 2
  | JobStatus.error => 3
  end.

(** Two messages that report no rule name in common. *)
Definition disjointNames (a b : list Rule.t) : Prop :=
  ∀ ra rb, ra ∈ a → rb ∈ b → Rule.name ra ≠ Rule.name rb.

(** The rules of a message that go by the name [name], in their order. *)
Definition candidates (name : string) (rules : list Rule.t) : list Rule.t :=
  filter (λ r, Rule.name r = name) rules.

(** The message reports the rule [name] with a status other than pending. *)
Definition reports (name : string) (job : IJob.t) : Prop :=
  Exists (λ r, Rule.name r = name ∧ nonPending r) (IJob.rules job).

(** Two records that differ in their [finished] stamp at most. *)
Definition sameButFinished (a b : IJob.t) : Prop :=
  IJob.setFinished None a = IJob.setFinished None b.

(** A call of the listener into the database module. *)
Inductive DbCall :=
| Lock (id : Z)
| GetJob (id : Z)
| UpdateJob (dbJob : IJob.t)
| Unlock (id : Z).

#[global] Instance DbCall_eq_dec : EqDecision DbCall.
Proof. solve_decision. Defined.

(** The calls one run of the listener makes, in their order: the lock and
    the lookup come first; every path that returns unlocks, after the update
    if there is one; a run that throws makes no further call. *)
Definition listenerCalls (getJob : option IJob.t) (job : IJob.t) : list DbCall :=
  [Lock (IJob.id job); GetJob (IJob.id job)]
  ++ match listener getJob job with
     | Updated dbJob => [UpdateJob dbJob; Unlock (IJob.id job)]
     | Skipped => [Unlock (IJob.id job)]
     | Thrown => []
     end.

End SyncExtra.

(** ** Backup service ([backup-service.ts]) *)

Module Backup.

Definition maxWeeklyCopies : nat := 4.
Definition maxDailyCopies : nat := 7.

(** A blob as [container.getBlobs()] lists it; the service reads its name. *)
Record Blob := mkBlob { name : string }.

#[global] Instance Blob_eq_dec : EqDecision Blob.
Proof. solve_decision. Defined.

(** [blob.name.substring(0, blob.name.indexOf('.'))], the sort key of
    [sortBy]: [indexOf] gives -1 for a name without a dot, and [substring]
    takes a negative end for 0, so the key is then empty. *)
Definition blobKey (blob : Blob) : string :=
  match String.index 0 "." (name blob) with
  | Some i => String.substring 0 i (name blob)
  | None => ""
  end.

(** [_.sortBy] of lodash: ascending by the key, string keys compared as
    JavaScript compares strings (here strings of 8-bit characters, compared
    character by character), and stable.  An element goes in front of the
    first one whose key is not smaller. *)
Fixpoint insertBy {A} (key : A → string) (x : A) (l : list A) : list A :=
  match l with
  | [] => [x]
  | y :: l' =>
      if String.leb (key x) (key y) then x :: y :: l' else y :: insertBy key x l'
  end.

Definition sortBy {A} (key : A → string) (l : list A) : list A :=
  foldr (insertBy key) [] l.

(** [_(blobs).sortBy(...).reverse().value()] *)
Definition sortedBackups (blobs : list Blob) : list Blob :=
  reverse (sortBy blobKey blobs).

(** [removeOldBackups]: the names [container.deleteBlob] is called with, in
    the order of the calls, when every call resolves. *)
Definition removeOldBackups (blobs : list Blob) (maxItems : nat) : list string :=
  if decide (maxItems < length blobs)%nat
  then name <$> drop maxItems (sortedBackups blobs)
  else [].

(** The blobs [removeOldBackups] leaves in the container. *)
Definition keptBackups (blobs : list Blob) (maxItems : nat) : list Blob :=
  if decide (maxItems < length blobs)%nat
  then take maxItems (sortedBackups blobs)
  else blobs.

(** [_(backups).sortBy(...).reverse().first()] *)
Definition newestBackup (backups : list Blob) : option Blob :=
  head (sortedBackups backups).

(** [copyMostRecentBlob]: the arguments of [originContainer.copyBlob], source
    name and target name, where [stamp] is [moment().format('YYYYMMDDHHmmss')];
    [None] when reading [name] of [undefined] throws. *)
Definition copyMostRecentBlob (backups : list Blob) (stamp : string)
    : option (string * string) :=
  match newestBackup backups with
  | None => None
  | Some newest => Some (name newest, (stamp ++ ".tar")%string)
  end.

(** The order [sortBy] puts the blobs in: by their keys, as strings. *)
Definition notNewer (a b : Blob) : Prop :=
  String.leb (blobKey a) (blobKey b) = true.

(** A stamp of [moment().format]: decimal digits only. *)
Definition isDigit (c : Ascii.ascii) : bool :=
  (48 <=? Ascii.nat_of_ascii c)%nat && (Ascii.nat_of_ascii c <=? 57)%nat.

Fixpoint allDigits (s : string) : bool :=
  match s with
  | EmptyString => true
  | String c s' => isDigit c && allDigits s'
  end.

(** The number a string of digits writes. *)
Fixpoint stampValue (acc : N) (s : string) : N :=
  match s with
  | EmptyString => acc
  | String c s' => stampValue (10 * acc + (Ascii.N_of_ascii c - 48))%N s'
  end.

End Backup.

(** ** Scan runner ([webhint-runner.ts]) *)

Module Runner.

(** [JobResult] as the runner builds it; [ok] starts as [null]. *)
Record JobResult := mkJobResult {
  error : option string;
  messages : option (list Problem.t);
  ok : option bool
}.

(** A value that was thrown: an [Error] with its message and stack, or
    anything else. *)
Inductive Thrown (V : Type) :=
| JsError (message : string) (stack : option string)
| Other (value : V).
Arguments JsError {V} message stack.
Arguments Other {V} value.

(** What a call gave: a value, or a thrown one. *)
Inductive Try (V A : Type) :=
| Returned (a : A)
| Threw (err : Thrown V).
Arguments Returned {V A} a.
Arguments Threw {V A} err.

(** The resources [utils.loadResources] reports. *)
Record Resources := mkResources {
  missing : list string;
  incompatible : list string
}.

(** What the calls into the [hint] package and [new URL] give in one run of
    the runner, in the order [run] makes them. *)
Record Calls (V : Type) := mkCalls {
  fromConfig : Try V unit;
  loadResources : Try V Resources;
  newEngine : Try V unit;
  newURL : Try V unit;
  executeOn : Try V (list Problem.t)
}.
Arguments mkCalls {V}.
Arguments fromConfig {V}.
Arguments loadResources {V}.
Arguments newEngine {V}.
Arguments newURL {V}.
Arguments executeOn {V}.

Definition newline : string := String (Ascii.ascii_of_nat 10) EmptyString.

(** [`Missing resources: ... Incompatible resources: ...`], the message of
    the error [run] throws itself. *)
Definition missingResources (r : Resources) : string :=
  ("Missing resources:" ++ newline ++ "    " ++ String.concat ", " (missing r)
   ++ newline ++ "Incompatible resources:" ++ newline ++ "    "
   ++ String.concat ", " (incompatible r))%string.

Section Run.
(** [JSON.stringify], on the object [{message, stack}] of an [Error] and on
    any other thrown value. *)
Context {V : Type}.
Variable stringifyError : string → option string → string.
Variable stringify : V → option string.
(** The stack of the error [run] creates. *)
Variable ownStack : option string.

Definition createErrorResult (err : Thrown V) : JobResult :=
  match err with
  | JsError message stack => mkJobResult (Some (stringifyError message stack)) None (Some false)
  | Other value => mkJobResult (stringify value) None (Some false)
  end.

(** [run]: the result handed to [process.send]. *)
Definition run (calls : Calls V) : JobResult :=
  match fromConfig calls with
  | Threw err => createErrorResult err
  | Returned _ =>
      match loadResources calls with
      | Threw err => createErrorResult err
      | Returned resources =>
          if bool_decide (0 < length (missing resources)
                          ∨ 0 < length (incompatible resources))%nat
          then createErrorResult (JsError (missingResources resources) ownStack)
          else
            match newEngine calls with
            | Threw err => createErrorResult err
            | Returned _ =>
                match newURL calls with
                | Threw err => createErrorResult err
                | Returned _ =>
                    match executeOn calls with
                    | Threw err => createErrorResult err
                    | Returned msgs => mkJobResult None (Some msgs) (Some true)
                    end
                end
            end
      end
  end.
End Run.

End Runner.

(** ** Concrete records and messages *)

Module Examples.

(** A two-rule job split in two parts, and the messages of its parts. *)
Module S.
Import Sync.

Definition found : Problem.t :=
  Problem.mk (Some "axe") "Images must have alternate text" None (Some Severity.error).

Definition broken : Problem.t :=
  Problem.mk None "Error running webhint" None None.

Definition dbPending : IJob.t :=
  IJob.mk 7 JobStatus.pending
    [Rule.mk "axe" RuleStatus.pending []; Rule.mk "content-type" RuleStatus.pending []]
    None None None None 0 0.

Definition msgStarted : IJob.t :=
  IJob.mk 7 JobStatus.started
    [Rule.mk "axe" RuleStatus.pending []; Rule.mk "content-type" RuleStatus.pending []]
    (Some 1000) None (Some "1.0.0") None 1 2.

Definition msgStartedAgain : IJob.t :=
  IJob.mk 7 JobStatus.started
    [Rule.mk "axe" RuleStatus.pending []; Rule.mk "content-type" RuleStatus.pending []]
    (Some 2000) None (Some "1.0.1") None 2 2.

Definition msgFinished1 : IJob.t :=
  IJob.mk 7 JobStatus.finished [Rule.mk "axe" RuleStatus.error [found]]
    (Some 1000) (Some 3000) (Some "1.0.0") None 1 2.

Definition msgFinished2 : IJob.t :=
  IJob.mk 7 JobStatus.finished [Rule.mk "content-type" RuleStatus.pass []]
    (Some 2000) (Some 4000) (Some "1.0.1") None 2 2.

Definition msgError : IJob.t :=
  IJob.mk 7 JobStatus.error [Rule.mk "content-type" RuleStatus.error [broken]]
    (Some 2000) (Some 5000) (Some "1.0.1") (Some "Error running webhint") 2 2.

Definition msgUnknown : IJob.t :=
  IJob.mk 7 JobStatus.finished
    [Rule.mk "axe" RuleStatus.pass []; Rule.mk "manifest-exists" RuleStatus.pass []]
    (Some 2000) (Some 4000) (Some "1.0.1") None 2 2.

Definition msgRetry : IJob.t :=
  IJob.mk 7 JobStatus.finished
    [Rule.mk "axe" RuleStatus.warning []; Rule.mk "content-type" RuleStatus.pass []]
    (Some 2500) (Some 4500) (Some "1.0.1") None 1 2.

(** An error message that names a rule the record does not list. *)
Definition msgErrorUnknown : IJob.t :=
  IJob.mk 7 JobStatus.error [Rule.mk "manifest-exists" RuleStatus.error [broken]]
    (Some 2000) (Some 5000) (Some "1.0.1") (Some "Error running webhint") 2 2.

(** The record once both parts were started and reported. *)
Definition dbFinished : IJob.t :=
  syncAll dbPending [msgStarted; msgStartedAgain; msgFinished1; msgFinished2].
End S.

(** The jobs of the worker tests, with a bus limit of 150 characters of
    message text. *)
Module W.
Import Worker.

Definition pendingHint (name : string) : Hint.t :=
  Hint.mk name HintStatus.pending [] None.

Definition engineMessage (hintId text : string) : Problem.t :=
  Problem.mk (Some hintId) text None None.

Definition job (names : list string) (cfg : list (string * HintConfig)) : IJob.t :=
  IJob.mk 0 "https://example.com" JobStatus.pending (pendingHint <$> names)
    [list_to_map cfg] (1%nat, 5%nat) None None None None.

Definition jobHappy : IJob.t :=
  job ["content-type"] [("content-type", Literal "error")].

Definition jobConfigured : IJob.t :=
  job ["axe"; "content-type"; "disown-opener"; "manifest-exists"]
    [("axe", Literal "warning"); ("content-type", Literal "error");
     ("disown-opener", Tuple [CStr "off"; CObj []])].

Definition jobAxe : IJob.t :=
  job ["axe"; "content-type"] [("axe", Literal "error")].

Definition jobTwo : IJob.t :=
  job ["axe"; "content-type"]
    [("axe", Literal "warning"); ("content-type", Literal "error")].

Definition jobDeadline : IJob.t :=
  IJob.mk 0 "https://example.com" JobStatus.pending [] [∅] (1%nat, 5%nat)
    (Some 1%nat) None None None.

Definition engineFailed : ChildEvent :=
  Message (mkJobResult (Some "Error running webhint") None false).

Definition engineDone (msgs : list Problem.t) : ChildEvent :=
  Message (mkJobResult None (Some msgs) true).

Definition tons : list Problem.t :=
  [engineMessage "axe" "First of a tons of messages";
   engineMessage "axe" "Second of a tons of messages"].

Definition lipsum : string :=
  "Lorem ipsum dolor sit amet, consectetur adipiscing elit, sed do eiusmod tempor incididunt ut labore".

Definition textSize (msgs : list Problem.t) : nat :=
  foldr (λ m n, (String.length (Problem.message m) + n)%nat) 0%nat msgs.

Definition jobTextSize (j : IJob.t) : nat :=
  foldr (λ h n, (textSize (Hint.messages h) + n)%nat) 0%nat (IJob.hints j).

Definition limit : nat := 150.

(** A bus that takes every message. *)
Definition busOk (m : IJob.t) : SendResult := Ok.

(** The bus of the 413 test: it refuses a message in which a hint carries
    two messages or more. *)
Definition bus413 (m : IJob.t) : SendResult :=
  if existsb (λ h, bool_decide (2 ≤ length (Hint.messages h))%nat) (IJob.hints m)
  then Oversize else Ok.


Definition run (bus : IJob.t → SendResult) (j : IJob.t) (ev : ChildEvent) : list Emission :=
  processSubJob limit jobTextSize textSize bus j ev 1000 2000.
End W.

(** The three jobs of the averages test, queued at the start of the hour. *)
Module A.
Import Status.

Definition validJob (wait run : Z) : Job.t :=
  Job.mk (Some 0) (Some wait) (Some (wait + run)) JobStatus.finished.

Definition jobs : list Job.t :=
  [validJob 1000 60000; validJob 3000 90000; validJob 5000 120000].

(** The most recent aggregate is sixteen minutes old. *)
Definition last : Z := 0.
Definition now : Z := 16 * 60 * 1000.
End A.

(** Further records and messages for the sync merge. *)
Module S2.
Import Sync.

(** A record that lists the rule [axe] twice. *)
Definition dbTwice : IJob.t :=
  IJob.mk 8 JobStatus.pending
    [Rule.mk "axe" RuleStatus.pending []; Rule.mk "axe" RuleStatus.pending []]
    None None None None 0 0.

Definition msgAxe : IJob.t :=
  IJob.mk 8 JobStatus.finished [Rule.mk "axe" RuleStatus.pass []]
    (Some 1000) (Some 3000) (Some "1.0.0") None 1 1.

(** A message that reports [axe] three times. *)
Definition msgThrice : IJob.t :=
  IJob.mk 7 JobStatus.finished
    [Rule.mk "axe" RuleStatus.pending [S.broken];
     Rule.mk "axe" RuleStatus.warning [S.found];
     Rule.mk "axe" RuleStatus.error []]
    (Some 1000) (Some 3000) (Some "1.0.0") None 1 2.

(** A terminal message and its two parts. *)
Definition whole : IJob.t :=
  IJob.mk 7 JobStatus.finished
    [Rule.mk "axe" RuleStatus.error [S.found]; Rule.mk "content-type" RuleStatus.pass []]
    (Some 1000) (Some 3000) (Some "1.0.0") None 1 1.

Definition part1 : IJob.t :=
  IJob.mk 7 JobStatus.finished [Rule.mk "axe" RuleStatus.error [S.found]]
    (Some 1000) (Some 3000) (Some "1.0.0") None 1 1.

Definition part2 : IJob.t :=
  IJob.mk 7 JobStatus.finished [Rule.mk "content-type" RuleStatus.pass []]
    (Some 1000) (Some 3000) (Some "1.0.0") None 1 1.
End S2.

(** A daily container after nine nights, listed out of order, with a stray
    blob whose name has no dot. *)
Module B.
Import Backup.

Definition daily : list Blob :=
  mkBlob <$> ["20180103010000000.tar"; "20180101010000000.tar"; "20180109010000000.tar";
              "20180105010000000.tar"; "README"; "20180102010000000.tar";
              "20180108010000000.tar"; "20180104010000000.tar"; "20180107010000000.tar";
              "20180106010000000.tar"].
End B.

(** A run of the scan runner in which a hint package is not installed. *)
Module R.
Import Runner.

Definition describe (message : string) (stack : option string) : string :=
  ("{message: " ++ message ++ "}")%string.

Definition callsMissing : Calls string :=
  mkCalls (Returned ()) (Returned (mkResources ["hint-axe"] []))
    (Returned ()) (Returned ()) (Returned [W.engineMessage "axe" "never reported"]).

Definition callsFine : Calls string :=
  mkCalls (Returned ()) (Returned (mkResources [] []))
    (Returned ()) (Returned ()) (Returned [W.engineMessage "axe" "Warning 1 axe"]).
End R.

End Examples.

(** * Properties of the sync merge *)

Module SyncFacts.
Import Sync.

Lemma absorb_name h r : Rule.name (absorb h r) = Rule.name h.
Proof. unfold absorb. repeat case_decide; done. Qed.

Lemma absorbAll_name h rs : Rule.name (absorbAll h rs) = Rule.name h.
Proof.
  revert h. induction rs as [|r rs IH]; intros h; [done|].
  cbn. by rewrite IH, absorb_name.
Qed.

Lemma absorb_settled h r : nonPending h → absorb h r = h.
Proof. unfold absorb, nonPending. intros. repeat case_decide; done. Qed.

Lemma absorbAll_settled h rs : nonPending h → absorbAll h rs = h.
Proof.
  induction rs as [|r rs IH]; intros Hh; [done|].
  cbn. rewrite absorb_settled by done. by apply IH.
Qed.

(** [setRule] on a record that starts with [h]. *)
Lemma setRule_cons h t r :
  setRule (h :: t) r =
    if decide (Rule.name h = Rule.name r) then Some (absorb h r :: t)
    else (h ::.) <$> setRule t r.
Proof.
  unfold setRule, getRule, absorb. cbn.
  destruct (decide (Rule.name h = Rule.name r)) as [Heq|Hne].
  - destruct (decide (Rule.status h = RuleStatus.pending)); done.
  - destruct (list_find _ t) as [[i x]|]; cbn; [|done].
    destruct (decide (Rule.status x = RuleStatus.pending)); done.
Qed.

Lemma setRule_nil r : setRule [] r = None.
Proof. done. Qed.

Lemma setRules_nil rs : setRules [] rs = if rs is [] then Some [] else None.
Proof. by destruct rs. Qed.

(** The loop splits along the durable list: its head absorbs the rules of
    its name, the tail sees all the others. *)
Lemma setRules_cons h t rs :
  setRules (h :: t) rs = (absorbAll h rs ::.) <$> setRules t (others h rs).
Proof.
  revert h t. induction rs as [|r rs IH]; intros h t; [done|].
  cbn [setRules]. rewrite setRule_cons. unfold others.
  destruct (decide (Rule.name h = Rule.name r)) as [Heq|Hne].
  - rewrite IH. rewrite filter_cons_False by (intros ?; congruence).
    unfold others. by rewrite absorb_name.
  - rewrite filter_cons_True by congruence. cbn [setRules].
    destruct (setRule t r) as [t'|]; cbn; [|done].
    rewrite IH. unfold absorb. by rewrite decide_False.
Qed.

Lemma setRules_length db rs db' : setRules db rs = Some db' → length db' = length db.
Proof.
  revert rs db'. induction db as [|h t IH]; intros rs db'.
  - rewrite setRules_nil. destruct rs; naive_solver.
  - rewrite setRules_cons. destruct (setRules t _) as [t'|] eqn:Ht; [|done].
    intros [= <-]. cbn. f_equal. eauto.
Qed.

(** Two pending rules of one name end up alike as soon as the message
    touches them. *)
Lemma absorbAll_pending h h' rs :
  Rule.name h = Rule.name h' →
  Rule.status h = RuleStatus.pending → Rule.status h' = RuleStatus.pending →
  (absorbAll h rs = h ∧ absorbAll h' rs = h') ∨ absorbAll h rs = absorbAll h' rs.
Proof.
  revert h h'. induction rs as [|r rs IH]; intros h h' Hn Hh Hh'; [by left|].
  cbn. destruct (decide (Rule.name h = Rule.name r)) as [Heq|Hne].
  - right. f_equal. unfold absorb.
    rewrite !decide_True by congruence. by rewrite Hn.
  - assert (absorb h r = h) as -> by (unfold absorb; by rewrite decide_False).
    assert (absorb h' r = h') as ->
      by (unfold absorb; rewrite decide_False; [done|congruence]).
    by apply IH.
Qed.

Lemma absorbAll_idem h rs : absorbAll (absorbAll h rs) rs = absorbAll h rs.
Proof.
  destruct (decide (Rule.status (absorbAll h rs) = RuleStatus.pending)) as [Hp|Hp];
    [|by apply absorbAll_settled].
  destruct (decide (Rule.status h = RuleStatus.pending)) as [Hh|Hh];
    [|by rewrite !(absorbAll_settled h)].
  destruct (absorbAll_pending h (absorbAll h rs) rs) as [[_ ?]|?];
    [by rewrite absorbAll_name|done..].
Qed.

(** A second run of the loop over the same message changes nothing. *)
Lemma setRules_idem db rs db' : setRules db rs = Some db' → setRules db' rs = Some db'.
Proof.
  revert rs db'. induction db as [|h t IH]; intros rs db'.
  - rewrite setRules_nil. destruct rs; naive_solver.
  - rewrite setRules_cons. destruct (setRules t _) as [t'|] eqn:Ht; [|done].
    intros [= <-]. rewrite setRules_cons. unfold others in *.
    rewrite absorbAll_name, (IH _ _ Ht). cbn. by rewrite absorbAll_idem.
Qed.

(** A rule that left [pending] is out of reach of the loop. *)
Lemma setRules_stable db rs db' i h :
  setRules db rs = Some db' → db !! i = Some h → nonPending h → db' !! i = Some h.
Proof.
  revert rs db' i. induction db as [|x t IH]; intros rs db' i; [done|].
  rewrite setRules_cons. destruct (setRules t _) as [t'|] eqn:Ht; [|done].
  intros [= <-]. destruct i as [|i]; cbn.
  - intros [= ->] Hh. by rewrite absorbAll_settled.
  - eauto.
Qed.

Lemma setRules_settled db rs db' :
  setRules db rs = Some db' → Forall nonPending db → Forall nonPending db'.
Proof.
  intros Hs Hall. apply Forall_lookup. intros i h' Hi.
  assert (is_Some (db !! i)) as [h Hh].
  { apply lookup_lt_is_Some. rewrite <- (setRules_length _ _ _ Hs).
    by eapply lookup_lt_Some. }
  pose proof (Forall_lookup_1 _ _ _ _ Hall Hh) as Hnp.
  rewrite (setRules_stable _ _ _ _ _ Hs Hh Hnp) in Hi. by injection Hi as <-.
Qed.

Lemma getRule_is_Some n db : is_Some (getRule n db) ↔ n ∈ Rule.name <$> db.
Proof.
  unfold getRule. rewrite list_elem_of_fmap. split.
  - intros [[i x] (Hi & Hx & _)%list_find_Some]. exists x. split; [done|].
    by eapply list_elem_of_lookup_2.
  - intros (x & -> & Hx). by eapply list_find_elem_of.
Qed.

Lemma setRule_names db r db' :
  setRule db r = Some db' → Rule.name <$> db' = Rule.name <$> db.
Proof.
  unfold setRule, getRule.
  destruct (list_find _ db) as [[i x]|] eqn:Hf; [|done].
  apply list_find_Some in Hf as (Hi & _ & _).
  case_decide; intros [= <-]; [|done].
  rewrite list_fmap_insert. cbn. apply list_insert_id.
  by rewrite list_lookup_fmap, Hi.
Qed.

Lemma setRule_is_Some db r : is_Some (setRule db r) ↔ is_Some (getRule (Rule.name r) db).
Proof.
  unfold setRule. destruct (getRule _ db) as [[i x]|].
  - case_decide; split; eauto.
  - split; intros [? ?]; done.
Qed.

(** The loop completes exactly when the message names known rules only;
    otherwise it throws. *)
Lemma setRules_is_Some db rs : is_Some (setRules db rs) ↔ rulesKnown db rs.
Proof.
  unfold rulesKnown. revert db. induction rs as [|r rs IH]; intros db; cbn.
  - split; [by constructor|eauto].
  - rewrite Forall_cons, <- setRule_is_Some.
    destruct (setRule db r) as [db1|] eqn:Hr.
    + rewrite IH. apply setRule_names in Hr.
      split; [intros H; split; [eauto|]|intros [_ H]];
        (eapply Forall_impl; [exact H|]); cbn; intros x;
        rewrite !getRule_is_Some; congruence.
    + split; [intros [? ?]; done|intros [[? ?] _]; done].
Qed.

Lemma setRules_throws db rs : ¬ rulesKnown db rs → setRules db rs = None.
Proof.
  rewrite <- setRules_is_Some. destruct (setRules db rs); [|done].
  intros []. eauto.
Qed.

Lemma setRules_names db rs db' :
  setRules db rs = Some db' → Rule.name <$> db' = Rule.name <$> db.
Proof.
  revert db. induction rs as [|r rs IH]; intros db; cbn; [by intros [= ->]|].
  destruct (setRule db r) as [db1|] eqn:Hr; [|done].
  intros ->%IH. by eapply setRule_names.
Qed.

Lemma isJobFinished_spec j : isJobFinished j = true ↔ Forall nonPending (IJob.rules j).
Proof.
  unfold isJobFinished. rewrite forallb_forall, Forall_forall.
  split; intros H x Hx.
  - apply list_elem_of_In, H in Hx. by apply bool_decide_eq_true in Hx.
  - apply bool_decide_eq_true, H. by apply list_elem_of_In.
Qed.

Arguments isJobFinished : simpl never.

(** The cases of the listener on a stored record. *)
Ltac listener_cases :=
  unfold sync, listener, merge; cbn;
  repeat (case_decide; cbn; try done; try congruence);
  repeat match goal with
    | |- context [setRules ?a ?b] => destruct (setRules a b) eqn:?; cbn; try done
    | |- context [isJobFinished ?a] => destruct (isJobFinished a) eqn:?; cbn; try done
    end.

Lemma sync_names dbJob job :
  Rule.name <$> IJob.rules (sync dbJob job) = Rule.name <$> IJob.rules dbJob.
Proof. listener_cases; by eapply setRules_names. Qed.

Lemma sync_stable dbJob job i h :
  IJob.rules dbJob !! i = Some h → nonPending h →
  IJob.rules (sync dbJob job) !! i = Some h.
Proof. intros Hi Hh. listener_cases; by eapply setRules_stable. Qed.

Lemma syncAll_names dbJob jobs :
  Rule.name <$> IJob.rules (syncAll dbJob jobs) = Rule.name <$> IJob.rules dbJob.
Proof.
  revert dbJob. induction jobs as [|job jobs IH]; intros dbJob; [done|].
  cbn. unfold syncAll in IH. by rewrite IH, sync_names.
Qed.

Lemma syncAll_stable dbJob jobs i h :
  IJob.rules dbJob !! i = Some h → nonPending h →
  IJob.rules (syncAll dbJob jobs) !! i = Some h.
Proof.
  revert dbJob. induction jobs as [|job jobs IH]; intros dbJob Hi Hh; [done|].
  cbn. apply IH; [|done]. by apply sync_stable.
Qed.

Lemma rulesKnown_names db db' rs :
  Rule.name <$> db' = Rule.name <$> db → rulesKnown db rs → rulesKnown db' rs.
Proof.
  intros Hn H. unfold rulesKnown. eapply Forall_impl; [exact H|]. intros r.
  cbn. rewrite !getRule_is_Some. congruence.
Qed.

Lemma sync_error_absorbing dbJob job :
  IJob.status dbJob = JobStatus.error → sync dbJob job = dbJob.
Proof. intros. listener_cases. Qed.

Lemma sync_error_dominating dbJob job :
  IJob.status job = JobStatus.error →
  rulesKnown (IJob.rules dbJob) (IJob.rules job) →
  IJob.status (sync dbJob job) = JobStatus.error.
Proof.
  intros Hj [db' Hs]%setRules_is_Some. listener_cases.
Qed.

Lemma syncAll_error_absorbing dbJob jobs :
  IJob.status dbJob = JobStatus.error → syncAll dbJob jobs = dbJob.
Proof.
  induction jobs as [|job jobs IH]; intros He; [done|].
  cbn. rewrite sync_error_absorbing by done. by apply IH.
Qed.

(** The listener on a terminal message that is not an error. *)
Lemma sync_terminal dbJob job db' :
  IJob.status dbJob ≠ JobStatus.error →
  IJob.status job ≠ JobStatus.started → IJob.status job ≠ JobStatus.error →
  setRules (IJob.rules dbJob) (IJob.rules job) = Some db' →
  listener (Some dbJob) job =
    Updated (if isJobFinished (IJob.setRules db' dbJob)
             then IJob.setStatus (IJob.status job)
                    (IJob.setFinished (IJob.finished job) (IJob.setRules db' dbJob))
             else IJob.setRules db' dbJob).
Proof.
  intros He Hs Hj Hr. unfold listener, merge.
  repeat (case_decide; try congruence). rewrite Hr.
  by destruct (isJobFinished _).
Qed.

(** The listener when the loop of [setRules] throws. *)
Lemma listener_throws dbJob job :
  IJob.status dbJob ≠ JobStatus.error → IJob.status job ≠ JobStatus.started →
  setRules (IJob.rules dbJob) (IJob.rules job) = None →
  listener (Some dbJob) job = Thrown.
Proof.
  intros He Hs Hr. unfold listener, merge.
  repeat (case_decide; try congruence); by rewrite Hr.
Qed.

Lemma sync_idem dbJob job : sync (sync dbJob job) job = sync dbJob job.
Proof.
  destruct (decide (IJob.status dbJob = JobStatus.error)) as [He|He].
  { rewrite (sync_error_absorbing dbJob job) by done.
    by apply sync_error_absorbing. }
  destruct (decide (IJob.status job = JobStatus.started)) as [Hs|Hs].
  { destruct dbJob as [? st ? ? ? ? ? ? ?], job as [? st' ? ? ? ? ? ? ?].
    cbn in Hs. subst st'. by destruct st. }
  destruct (decide (IJob.status job = JobStatus.error)) as [Hj|Hj].
  { destruct (decide (rulesKnown (IJob.rules dbJob) (IJob.rules job))) as [Hk|Hk].
    - apply sync_error_absorbing. by apply sync_error_dominating.
    - apply setRules_throws in Hk.
      assert (sync dbJob job = dbJob) as Hsame
        by (unfold sync; by rewrite listener_throws).
      by rewrite !Hsame. }
  destruct (setRules (IJob.rules dbJob) (IJob.rules job)) as [db'|] eqn:Hr.
  - pose proof (setRules_idem _ _ _ Hr) as Hr'.
    unfold sync at 2 3. rewrite (sync_terminal _ _ db') by done.
    unfold sync.
    destruct (isJobFinished (IJob.setRules db' dbJob)) eqn:Hf.
    + rewrite (sync_terminal _ _ db') by done.
      unfold isJobFinished in *. cbn in *. by rewrite Hf.
    + rewrite (sync_terminal _ _ db') by done.
      unfold isJobFinished in *. cbn in *. by rewrite Hf.
  - assert (sync dbJob job = dbJob) as Hsame
      by (unfold sync; by rewrite listener_throws).
    by rewrite !Hsame.
Qed.

Lemma getRule_stable db db' n i h :
  Rule.name <$> db' = Rule.name <$> db →
  db' !! i = Some h →
  getRule n db = Some (i, h) → getRule n db' = Some (i, h).
Proof.
  unfold getRule. intros Hn Hi (_ & Hh & Hleast)%list_find_Some.
  apply list_find_Some. split_and!; [done..|].
  intros j y Hj Hlt Hy.
  assert (is_Some (db !! j)) as [z Hz].
  { apply lookup_lt_is_Some. rewrite <- (length_fmap Rule.name), <- Hn, length_fmap.
    by eapply lookup_lt_Some. }
  apply (Hleast j z Hz Hlt).
  assert ((Rule.name <$> db') !! j = (Rule.name <$> db) !! j) as Heq by by rewrite Hn.
  rewrite !list_lookup_fmap, Hj, Hz in Heq. cbn in Heq. congruence.
Qed.

Lemma sync_settled dbJob job : settled dbJob → settled (sync dbJob job).
Proof.
  unfold settled. intros Hinv.
  destruct (decide (IJob.status dbJob = JobStatus.error)) as [He|He].
  { by rewrite sync_error_absorbing. }
  destruct (decide (IJob.status job = JobStatus.started)) as [Hs|Hs].
  { unfold sync, listener, merge. rewrite decide_False, decide_True by done.
    repeat (case_decide; cbn in *; try done; try congruence). }
  unfold sync, listener, merge. rewrite !decide_False by done.
  destruct (setRules _ _) as [db'|] eqn:Hr; [|done].
  case_decide; cbn; [congruence|].
  destruct (isJobFinished _) eqn:Hf; cbn.
  - intros _. by apply isJobFinished_spec in Hf.
  - intros Hfin. eapply setRules_settled; eauto.
Qed.

Lemma syncAll_settled dbJob jobs : settled dbJob → settled (syncAll dbJob jobs).
Proof.
  revert dbJob. induction jobs as [|job jobs IH]; intros dbJob Hinv; [done|].
  cbn. by apply IH, sync_settled.
Qed.

Import Examples.S.

(** C1, amended: a durable record whose status is [error] is left unchanged
    by any further message (the listener returns before it writes); a
    message with status [error] all of whose rule names the record lists
    turns a record that is not in [error] into one that is, with the
    message's [finished] and [error]; hence a sequence of deliveries that
    holds such an [error] message ends in [error], wherever that message
    stands and whatever the other messages are. *)
Theorem error_is_absorbing_and_dominating (dbJob : IJob.t) :
  (IJob.status dbJob = JobStatus.error →
     ∀ job, listener (Some dbJob) job = Skipped ∧ sync dbJob job = dbJob)
  ∧ (∀ job,
       IJob.status dbJob ≠ JobStatus.error → IJob.status job = JobStatus.error →
       rulesKnown (IJob.rules dbJob) (IJob.rules job) →
       ∃ dbJob', listener (Some dbJob) job = Updated dbJob'
                 ∧ IJob.status dbJob' = JobStatus.error
                 ∧ IJob.finished dbJob' = IJob.finished job
                 ∧ IJob.error dbJob' = IJob.error job)
  ∧ (∀ jobs,
       Exists (λ job, IJob.status job = JobStatus.error
                      ∧ rulesKnown (IJob.rules dbJob) (IJob.rules job)) jobs →
       IJob.status (syncAll dbJob jobs) = JobStatus.error).
Proof.
  split_and!.
  - intros He job. split; [|by apply sync_error_absorbing].
    unfold listener, merge. by rewrite decide_True.
  - intros job He Hj [db' Hr]%setRules_is_Some.
    eexists. unfold listener, merge.
    rewrite decide_False, decide_False, Hr, decide_True by congruence.
    by split_and!.
  - intros jobs. revert dbJob.
    induction jobs as [|job jobs IH]; intros dbJob Hex; [by inversion Hex|].
    change (IJob.status (syncAll (sync dbJob job) jobs) = JobStatus.error).
    apply Exists_cons in Hex as [[Hj Hk]|Hex].
    + assert (IJob.status (sync dbJob job) = JobStatus.error) as Hnow.
      { destruct (decide (IJob.status dbJob = JobStatus.error)) as [He|He].
        - by rewrite sync_error_absorbing.
        - by apply sync_error_dominating. }
      by rewrite syncAll_error_absorbing.
    + apply IH.
      eapply Exists_impl; [exact Hex|]. intros j [Hj Hk]. split; [done|].
      eapply rulesKnown_names; [apply sync_names|done].
Qed.

Lemma error_is_absorbing_and_dominating_witness :
  IJob.status (syncAll dbPending [msgUnknown; msgFinished1; msgError; msgFinished2])
    = JobStatus.error
  ∧ sync (sync dbPending msgError) msgFinished1 = sync dbPending msgError.
Proof.
  destruct (error_is_absorbing_and_dominating dbPending) as (_ & _ & Hseq).
  destruct (error_is_absorbing_and_dominating (sync dbPending msgError)) as (Habs & _ & _).
  split.
  - apply Hseq.
    apply Exists_cons_tl, Exists_cons_tl, Exists_cons_hd. split; [reflexivity|].
    apply (bool_decide_unpack _). vm_compute. exact I.
  - apply Habs. reflexivity.
Defined.

(** C1, as stated, fails for an error message that names a rule the record
    does not list: the loop of [setRules] throws before the status is
    assigned, the record stays as it was, and the job of the example ends
    [finished] although one of its parts reported [error]. *)
Lemma error_message_naming_unknown_rule_is_lost :
  IJob.status dbPending ≠ JobStatus.error
  ∧ IJob.status msgErrorUnknown = JobStatus.error
  ∧ listener (Some dbPending) msgErrorUnknown = Thrown
  ∧ IJob.status (sync dbPending msgErrorUnknown) ≠ JobStatus.error
  ∧ IJob.status (syncAll dbPending [msgFinished1; msgErrorUnknown; msgFinished2])
      = JobStatus.finished.
Proof. by vm_compute. Qed.

(** C2: merging the same message twice leaves the durable record as
    merging it once does; and a rule of the record that is found under
    its name with a status other than [pending] is found unchanged, status
    and messages, after any sequence of merges. *)
Theorem sync_is_idempotent :
  (∀ dbJob job, sync (sync dbJob job) job = sync dbJob job)
  ∧ (∀ dbJob jobs name i rule,
       getRule name (IJob.rules dbJob) = Some (i, rule) → nonPending rule →
       getRule name (IJob.rules (syncAll dbJob jobs)) = Some (i, rule)).
Proof.
  split; [apply sync_idem|].
  intros dbJob jobs name i rule Hg Hnp.
  eapply getRule_stable; [apply syncAll_names| |done].
  apply syncAll_stable; [|done].
  unfold getRule in Hg. by apply list_find_Some in Hg as (? & _).
Qed.

Lemma sync_is_idempotent_witness :
  getRule "axe" (IJob.rules (syncAll (sync dbPending msgFinished1) [msgRetry; msgFinished1]))
    = Some (0%nat, Rule.mk "axe" RuleStatus.error [found])
  ∧ sync (sync dbPending msgRetry) msgRetry = sync dbPending msgRetry.
Proof.
  destruct sync_is_idempotent as [Hidem Hfirst].
  split; [|apply Hidem].
  apply Hfirst; [reflexivity|]. unfold nonPending. cbn. discriminate.
Defined.




(** The two guards of the [started] branch: on a message with status
    [started] the listener stores the message's [started] stamp and engine
    version whenever the record's status is not [started]; a record whose
    status is [started] is written back as it is; the status becomes
    [started] only from [pending]; rules, [finished] and [error] are never
    touched. *)
Lemma started_branch_guards (dbJob job : IJob.t) :
  IJob.status job = JobStatus.started →
  IJob.status dbJob ≠ JobStatus.error →
  ∃ dbJob',
    listener (Some dbJob) job = Updated dbJob'
    ∧ (IJob.status dbJob ≠ JobStatus.started →
         IJob.started dbJob' = IJob.started job
         ∧ IJob.sonarVersion dbJob' = IJob.sonarVersion job)
    ∧ (IJob.status dbJob = JobStatus.started → dbJob' = dbJob)
    ∧ (IJob.status dbJob = JobStatus.pending → IJob.status dbJob' = JobStatus.started)
    ∧ (IJob.status dbJob ≠ JobStatus.pending → IJob.status dbJob' = IJob.status dbJob)
    ∧ IJob.rules dbJob' = IJob.rules dbJob
    ∧ IJob.finished dbJob' = IJob.finished dbJob
    ∧ IJob.error dbJob' = IJob.error dbJob.
Proof.
  intros Hs He. eexists. unfold listener, merge.
  rewrite decide_False, decide_True by done.
  split; [reflexivity|].
  destruct dbJob as [? st ? ? ? ? ? ? ?]. cbn in *.
  destruct st; cbn; rewrite ?Hs; split_and!; intros; try done; congruence.
Qed.

(** C5 at the failing input: the record of the example job went through
    both [started] messages and both reports, so it holds the stamp and
    the engine version of its first [started] message and its status is
    [finished], not [pending]; a [started] message that is delivered again
    replaces both, where the claim, and the comment in the listener (only
    the first one is to be stored), leave them as they are.  On a pending
    and on a started record the listener does what the claim says. *)
Lemma started_message_after_finish_overwrites :
  IJob.status msgStartedAgain = JobStatus.started
  ∧ IJob.status dbFinished = JobStatus.finished
  ∧ IJob.status dbFinished ≠ JobStatus.pending
  ∧ IJob.started dbFinished = Some 1000
  ∧ IJob.sonarVersion dbFinished = Some "1.0.0"
  ∧ IJob.started (sync dbFinished msgStartedAgain) = Some 2000
  ∧ IJob.sonarVersion (sync dbFinished msgStartedAgain) = Some "1.0.1"
  ∧ IJob.started (sync dbFinished msgStartedAgain) ≠ IJob.started dbFinished
  ∧ IJob.sonarVersion (sync dbFinished msgStartedAgain) ≠ IJob.sonarVersion dbFinished
  ∧ IJob.started (sync dbPending msgStarted) = Some 1000
  ∧ sync (sync dbPending msgStarted) msgStartedAgain = sync dbPending msgStarted.
Proof. by vm_compute. Qed.

(** C10: when the loop of [setRules] is reached (the record is not in
    [error], the message is not a [started] one), the listener throws
    exactly when some rule name of the message is absent from the record,
    [getRule] returning [undefined] for it; the throw comes before
    [database.updateJob], so the durable record stays as it was. *)
Theorem unknown_rule_name_throws (dbJob job : IJob.t) :
  IJob.status dbJob ≠ JobStatus.error →
  IJob.status job ≠ JobStatus.started →
  (listener (Some dbJob) job = Thrown ↔
     ∃ rule, rule ∈ IJob.rules job ∧ getRule (Rule.name rule) (IJob.rules dbJob) = None)
  ∧ (listener (Some dbJob) job = Thrown →
       setRules (IJob.rules dbJob) (IJob.rules job) = None ∧ sync dbJob job = dbJob).
Proof.
  intros He Hs.
  assert (listener (Some dbJob) job = Thrown ↔
          setRules (IJob.rules dbJob) (IJob.rules job) = None) as Hthrow.
  { split; [|by apply listener_throws].
    unfold listener, merge. rewrite !decide_False by done.
    destruct (setRules _ _); [|done].
    case_decide; [done|]. by destruct (isJobFinished _). }
  split.
  - rewrite Hthrow. split.
    + intros Hr.
      destruct (decide (rulesKnown (IJob.rules dbJob) (IJob.rules job))) as [Hk|Hk].
      { apply setRules_is_Some in Hk as [? ?]. congruence. }
      apply not_Forall_Exists in Hk; [|apply _].
      apply Exists_exists in Hk as (rule & Hin & Hnone). exists rule. split; [done|].
      cbn in Hnone. by destruct (getRule _ _); [destruct Hnone; eauto|].
    + intros (rule & Hin & Hnone). apply setRules_throws.
      intros Hk. unfold rulesKnown in Hk. rewrite Forall_forall in Hk.
      apply Hk in Hin. rewrite Hnone in Hin. by destruct Hin.
  - intros Hl. split; [by apply Hthrow|]. unfold sync. by rewrite Hl.
Qed.

Lemma unknown_rule_name_throws_witness :
  listener (Some dbPending) msgUnknown = Thrown
  ∧ sync dbPending msgUnknown = dbPending.
Proof.
  destruct (unknown_rule_name_throws dbPending msgUnknown) as [Hiff Hkeep];
    [discriminate..|].
  assert (listener (Some dbPending) msgUnknown = Thrown) as Hl.
  { apply Hiff. exists (Rule.mk "manifest-exists" RuleStatus.pass []).
    split; [|reflexivity]. apply list_elem_of_further, list_elem_of_here. }
  split; [done|]. by apply Hkeep.
Defined.

End SyncFacts.


(** * Properties of the worker's emissions *)

Module WorkerFacts.
Import Worker.

Lemma collapseMessage_status msg : IJob.status (collapseMessage msg) = IJob.status msg.
Proof. done. Qed.

Lemma collapseMessage_error msg : IJob.error (collapseMessage msg) = IJob.error msg.
Proof. done. Qed.


Section Emit.
Context (MAX_MESSAGE_SIZE : nat) (jobSize : IJob.t → nat)
  (messagesSize : list Problem.t → nat) (bus : IJob.t → SendResult).

#[local] Abbreviation place := (Worker.place MAX_MESSAGE_SIZE jobSize).
#[local] Abbreviation partitionHints := (Worker.partitionHints MAX_MESSAGE_SIZE jobSize).
#[local] Abbreviation proactive := (Worker.proactive MAX_MESSAGE_SIZE messagesSize).
#[local] Abbreviation collapseIfOversize := (Worker.collapseIfOversize MAX_MESSAGE_SIZE messagesSize).
#[local] Abbreviation prepare := (Worker.prepare MAX_MESSAGE_SIZE jobSize messagesSize).
#[local] Abbreviation sendTerminal := (Worker.sendTerminal bus).
#[local] Abbreviation send := (Worker.send bus).
#[local] Abbreviation processSubJob :=
  (Worker.processSubJob MAX_MESSAGE_SIZE jobSize messagesSize bus).

Lemma place_not_nil msg gs h : place msg gs h ≠ [].
Proof. destruct gs as [|g gs]; cbn; [done|]. by destruct (fits _ _ _ _ _). Qed.

Lemma place_all_not_nil msg gs hs : gs ≠ [] → foldl (place msg) gs hs ≠ [].
Proof.
  revert gs. induction hs as [|h hs IH]; intros gs Hgs; [done|].
  cbn. apply IH, place_not_nil.
Qed.

(** First-fit neither drops nor repeats a hint. *)
Lemma place_concat msg gs h : mjoin (place msg gs h) ≡ₚ mjoin gs ++ [h].
Proof.
  induction gs as [|g gs IH]; cbn; [done|].
  destruct (fits _ _ _ _ _); cbn.
  - rewrite <- !app_assoc. f_equiv. apply Permutation_app_comm.
  - by rewrite IH, app_assoc.
Qed.

Lemma place_all_concat msg gs hs : mjoin (foldl (place msg) gs hs) ≡ₚ mjoin gs ++ hs.
Proof.
  revert gs. induction hs as [|h hs IH]; intros gs; cbn.
  - by rewrite app_nil_r.
  - by rewrite IH, place_concat, <- app_assoc.
Qed.

Lemma partitionHints_concat msg hs : mjoin (partitionHints msg hs) ≡ₚ hs.
Proof. unfold Worker.partitionHints. by rewrite place_all_concat. Qed.

Lemma prepare_not_nil msg : prepare msg ≠ [].
Proof.
  unfold Worker.prepare. case_decide; [done|].
  intros Hnil%fmap_nil_inv. revert Hnil. by apply place_all_not_nil.
Qed.

(** The partitions differ from the terminal result in their hints only. *)
Lemma prepare_fields msg m :
  m ∈ prepare msg →
  IJob.id m = IJob.id msg ∧ IJob.partInfo m = IJob.partInfo msg
  ∧ IJob.status m = IJob.status msg ∧ IJob.error m = IJob.error msg.
Proof.
  unfold Worker.prepare. case_decide.
  - by intros ->%list_elem_of_singleton.
  - by intros (g & -> & _)%list_elem_of_fmap.
Qed.

Lemma prepare_hints msg :
  mjoin (IJob.hints <$> prepare msg) ≡ₚ collapseIfOversize <$> IJob.hints msg.
Proof.
  unfold Worker.prepare. case_decide; cbn.
  - by rewrite app_nil_r.
  - rewrite <- list_fmap_compose.
    rewrite (list_fmap_ext _ id) by done.
    rewrite list_fmap_id. apply partitionHints_concat.
Qed.

Lemma sendTerminal_payload m e :
  e ∈ sendTerminal m → payload e = m ∨ payload e = collapseMessage m.
Proof.
  unfold Worker.sendTerminal, Worker.send. destruct (bus m).
  - intros ->%list_elem_of_singleton. by left.
  - intros [->|[->|[]%elem_of_nil]%elem_of_cons]%elem_of_cons; auto.
Qed.

(** Every terminal emission carries the status and the error of the
    terminal result. *)
Lemma terminal_emission_fields msg e :
  e ∈ prepare msg ≫= sendTerminal →
  IJob.status (payload e) = IJob.status msg ∧ IJob.error (payload e) = IJob.error msg.
Proof.
  intros (m & He & (_ & _ & Hs & Herr)%prepare_fields)%list_elem_of_bind.
  by destruct (sendTerminal_payload _ _ He) as [->| ->].
Qed.

(** Every hint of a terminal emission is a hint of the terminal result, with
    its name and status, and with its messages unless they were replaced. *)
Lemma terminal_emission_hint msg e h' :
  e ∈ prepare msg ≫= sendTerminal → h' ∈ IJob.hints (payload e) →
  ∃ h, h ∈ IJob.hints msg ∧ Hint.name h' = Hint.name h ∧ Hint.status h' = Hint.status h
       ∧ (Hint.messages h' = Hint.messages h ∨ Hint.messages h' = [tooManyErrors]).
Proof.
  intros (m & He & Hm)%list_elem_of_bind Hh'.
  assert (∃ h1, h1 ∈ IJob.hints m ∧ Hint.name h' = Hint.name h1
                ∧ Hint.status h' = Hint.status h1
                ∧ (Hint.messages h' = Hint.messages h1 ∨ Hint.messages h' = [tooManyErrors]))
    as (h1 & Hh1 & Hn1 & Hs1 & Hm1).
  { destruct (sendTerminal_payload _ _ He) as [Hp|Hp]; rewrite Hp in Hh'.
    - exists h'. auto.
    - cbn in Hh'. apply list_elem_of_fmap in Hh' as (h1 & -> & Hh1).
      exists h1. destruct (Hint.messages h1) eqn:Hms; cbn; rewrite ?Hms; auto. }
  assert (h1 ∈ mjoin (IJob.hints <$> prepare msg)) as Hin.
  { apply list_elem_of_join. exists (IJob.hints m). split; [done|].
    by apply list_elem_of_fmap_2. }
  rewrite prepare_hints in Hin. apply list_elem_of_fmap in Hin as (h & -> & Hh).
  exists h. split; [done|]. unfold Worker.collapseIfOversize in *.
  case_decide; cbn in *; rewrite ?Hn1, ?Hs1; split_and!; try done.
  destruct Hm1 as [->| ->]; auto.
Qed.

(** Every hint of the terminal result goes out in some partition. *)
Lemma prepare_covers msg h :
  h ∈ IJob.hints msg → ∃ m, m ∈ prepare msg ∧ collapseIfOversize h ∈ IJob.hints m.
Proof.
  intros Hh.
  assert (collapseIfOversize h ∈ mjoin (IJob.hints <$> prepare msg)) as Hin
    by (rewrite prepare_hints; by apply list_elem_of_fmap_2).
  apply list_elem_of_join in Hin as (hs & Hin & (m & -> & Hm)%list_elem_of_fmap).
  eauto.
Qed.








(** The first call made for a terminal message carries it as it is. *)
Lemma sendTerminal_first m : send m ∈ sendTerminal m.
Proof. unfold Worker.sendTerminal. destruct (bus m); apply list_elem_of_here. Qed.

(** Every hint of the terminal result is handed to [sendMessage]. *)
Lemma terminal_hint_goes_out msg h :
  h ∈ IJob.hints msg →
  ∃ e, e ∈ prepare msg ≫= sendTerminal ∧ collapseIfOversize h ∈ IJob.hints (payload e).
Proof.
  intros (m & Hm & Hin)%prepare_covers. exists (send m). split; [|done].
  apply list_elem_of_bind. exists m. split; [apply sendTerminal_first|done].
Qed.

(** One call for each message, and one more for each the bus refuses. *)
Lemma terminal_calls_length ms :
  length (ms ≫= sendTerminal)
    = (length ms + length (filter (λ m, bus m = Oversize) ms))%nat.
Proof.
  induction ms as [|m ms IH]; [done|].
  rewrite bind_cons, length_app, IH, filter_cons. unfold Worker.sendTerminal.
  destruct (bus m) eqn:Hb; case_decide; cbn; try congruence; lia.
Qed.

Lemma terminal_calls_not_nil msg : prepare msg ≫= sendTerminal ≠ [].
Proof.
  intros Hnil. apply (f_equal length) in Hnil. rewrite terminal_calls_length in Hnil.
  destruct (prepare msg) eqn:Hp; [by apply prepare_not_nil in Hp|]. cbn in Hnil. lia.
Qed.

Lemma collapseIfOversize_fields h :
  Hint.name (collapseIfOversize h) = Hint.name h
  ∧ Hint.status (collapseIfOversize h) = Hint.status h
  ∧ (Hint.messages (collapseIfOversize h) = Hint.messages h
     ∨ Hint.messages (collapseIfOversize h) = [tooManyErrors]).
Proof. unfold Worker.collapseIfOversize. case_decide; cbn; auto. Qed.


(** C6: when the child answers [{ok: false}] the worker calls [sendMessage]
    with the [started] result and then, at least once, with a terminal
    result; every such call has status [error] and carries the child's
    error; every hint of the sub-job goes out in one of these calls, marked
    [off] if the bundle sets it to [off] (the literal, or a tuple that
    starts with it), marked [error] with the single synthetic message (or
    the entry that stands for too many messages) if the bundle mentions it
    otherwise, and with the status it came with, so [pending], if the
    bundle does not mention it; and no call carries a hint marked in
    another way. *)
Theorem engine_error_marks_configured_hints job r t0 t1 :
  ok r = false →
  let terminal := terminalMessage job (Message r) t1 in
  let text := default "" (error r) in
  IJob.status terminal = JobStatus.error
  ∧ IJob.error terminal = Some (Raw text)
  ∧ (∀ i h, IJob.hints job !! i = Some h →
       ∃ h', IJob.hints terminal !! i = Some h' ∧ Hint.name h' = Hint.name h
         ∧ match bundle job !! Hint.name h with
           | Some c =>
               if isOff c then Hint.status h' = HintStatus.off
               else Hint.status h' = HintStatus.error
                    ∧ Hint.messages h' = [syntheticMessage text]
           | None => h' = h
           end)
  ∧ ∃ terminals,
      processSubJob job (Message r) t0 t1 = send (startedMessage job t0) :: terminals
      ∧ terminals ≠ []
      ∧ Forall (λ e, IJob.status (payload e) = JobStatus.error
                     ∧ IJob.error (payload e) = Some (Raw text)) terminals
      ∧ (∀ h, h ∈ IJob.hints job →
           ∃ e h', e ∈ terminals ∧ h' ∈ IJob.hints (payload e)
             ∧ Hint.name h' = Hint.name h
             ∧ match bundle job !! Hint.name h with
               | Some c =>
                   if isOff c then Hint.status h' = HintStatus.off
                   else Hint.status h' = HintStatus.error
                        ∧ (Hint.messages h' = [syntheticMessage text]
                           ∨ Hint.messages h' = [tooManyErrors])
               | None => Hint.status h' = Hint.status h
               end)
      ∧ (∀ e h', e ∈ terminals → h' ∈ IJob.hints (payload e) →
           ∃ h, h ∈ IJob.hints job ∧ Hint.name h' = Hint.name h
             ∧ match bundle job !! Hint.name h with
               | Some c =>
                   if isOff c then Hint.status h' = HintStatus.off
                   else Hint.status h' = HintStatus.error
                        ∧ (Hint.messages h' = [syntheticMessage text]
                           ∨ Hint.messages h' = [tooManyErrors])
               | None => Hint.status h' = Hint.status h
               end).
Proof.
  intros Hok terminal text.
  assert (terminal = failed job text t1) as Hterm
    by (unfold terminal; cbn; by rewrite Hok).
  assert (∀ h, Hint.name (errorHint (bundle job) text h) = Hint.name h) as Hname.
  { intros h. unfold errorHint. destruct (bundle job !! Hint.name h) as [c|]; [|done].
    by destruct (isOff c). }
  split_and!.
  - by rewrite Hterm.
  - by rewrite Hterm.
  - intros i h Hi. rewrite Hterm. cbn. rewrite list_lookup_fmap, Hi. cbn.
    eexists. split; [done|]. split; [apply Hname|].
    unfold errorHint. destruct (bundle job !! Hint.name h) as [c|]; [|done].
    by destruct (isOff c).
  - exists (prepare terminal ≫= sendTerminal). split_and!.
    + done.
    + apply terminal_calls_not_nil.
    + apply Forall_forall. intros e He.
      destruct (terminal_emission_fields _ _ He) as [-> ->]. by rewrite Hterm.
    + intros h Hh.
      assert (errorHint (bundle job) text h ∈ IJob.hints terminal) as Hin
        by (rewrite Hterm; cbn; by apply list_elem_of_fmap_2).
      destruct (terminal_hint_goes_out _ _ Hin) as (e & He & Hout).
      destruct (collapseIfOversize_fields (errorHint (bundle job) text h))
        as (Hn & Hs & Hm).
      exists e, (collapseIfOversize (errorHint (bundle job) text h)).
      split_and!; [done..|by rewrite Hn|].
      rewrite Hs. revert Hm. unfold errorHint.
      destruct (bundle job !! Hint.name h) as [c|]; [|done].
      destruct (isOff c); cbn; [done|]. intros Hm. by split.
    + intros e h' He Hh'.
      destruct (terminal_emission_hint _ _ _ He Hh') as (h1 & Hh1 & Hn & Hs & Hm).
      rewrite Hterm in Hh1. cbn in Hh1.
      apply list_elem_of_fmap in Hh1 as (h & -> & Hh).
      exists h. split; [done|]. rewrite Hn, Hs. split; [apply Hname|].
      revert Hm. unfold errorHint.
      destruct (bundle job !! Hint.name h) as [c|]; [|done].
      destruct (isOff c); cbn; [done|]. intros Hm. by split.
Qed.

(** C7: when the deadline expires before the child answers, the worker
    calls [sendMessage] with the [started] result and then, at least once,
    with a terminal result; every such call has status [finished], not
    [error], and the error [{message: 'TIMEOUT'}], and carries no pending
    hint; every hint of the sub-job goes out in one of these calls, marked
    [pass] if it was pending and with its own status otherwise. *)
Theorem deadline_reports_finished_with_timeout job t0 t1 :
  let terminal := terminalMessage job Deadline t1 in
  IJob.status terminal = JobStatus.finished
  ∧ IJob.status terminal ≠ JobStatus.error
  ∧ IJob.error terminal = Some (Obj "TIMEOUT")
  ∧ (∀ i h, IJob.hints job !! i = Some h →
       ∃ h', IJob.hints terminal !! i = Some h' ∧ Hint.name h' = Hint.name h
         ∧ Hint.messages h' = Hint.messages h
         ∧ (Hint.status h = HintStatus.pending → Hint.status h' = HintStatus.pass)
         ∧ (Hint.status h ≠ HintStatus.pending → h' = h))
  ∧ ∃ terminals,
      processSubJob job Deadline t0 t1 = send (startedMessage job t0) :: terminals
      ∧ terminals ≠ []
      ∧ Forall (λ e, IJob.status (payload e) = JobStatus.finished
                     ∧ IJob.status (payload e) ≠ JobStatus.error
                     ∧ IJob.error (payload e) = Some (Obj "TIMEOUT")
                     ∧ ∀ h', h' ∈ IJob.hints (payload e) →
                         Hint.status h' ≠ HintStatus.pending) terminals
      ∧ (∀ h, h ∈ IJob.hints job →
           ∃ e h', e ∈ terminals ∧ h' ∈ IJob.hints (payload e)
             ∧ Hint.name h' = Hint.name h
             ∧ (Hint.status h = HintStatus.pending → Hint.status h' = HintStatus.pass)
             ∧ (Hint.status h ≠ HintStatus.pending → Hint.status h' = Hint.status h)).
Proof.
  intros terminal. unfold terminal. split_and!; try done.
  - intros i h Hi. cbn. rewrite list_lookup_fmap, Hi. cbn. eexists. split; [done|].
    unfold timeoutHint. case_decide; cbn; split_and!; done.
  - exists (prepare (terminalMessage job Deadline t1) ≫= sendTerminal). split_and!.
    + done.
    + apply terminal_calls_not_nil.
    + apply Forall_forall. intros e He.
      destruct (terminal_emission_fields _ _ He) as [Hs Herr].
      rewrite Hs, Herr. split_and!; [done..|]. intros h' Hh'.
      destruct (terminal_emission_hint _ _ _ He Hh') as (h & Hh & _ & Hst & _).
      rewrite Hst. cbn in Hh. apply list_elem_of_fmap in Hh as (h0 & -> & _).
      unfold timeoutHint. case_decide; cbn; done.
    + intros h Hh.
      assert (timeoutHint h ∈ IJob.hints (terminalMessage job Deadline t1)) as Hin
        by (cbn; by apply list_elem_of_fmap_2).
      destruct (terminal_hint_goes_out _ _ Hin) as (e & He & Hout).
      destruct (collapseIfOversize_fields (timeoutHint h)) as (Hn & Hs & _).
      exists e, (collapseIfOversize (timeoutHint h)).
      split_and!; [done..| | |]; rewrite ?Hn, ?Hs;
        unfold timeoutHint; case_decide; cbn; done.
Qed.


End Emit.

Import Examples.W.

(** The worker tests, replayed on the model. *)

Example test_no_problem :
  (λ e, (IJob.status (payload e), Hint.status <$> IJob.hints (payload e)))
    <$> run busOk jobHappy (engineDone [])
  = [(JobStatus.started, [HintStatus.pending]); (JobStatus.finished, [HintStatus.pass])].
Proof. reflexivity. Qed.

Example test_hints_set_as_error :
  (λ e, (IJob.status (payload e), Hint.status <$> IJob.hints (payload e)))
    <$> tail (run busOk jobConfigured engineFailed)
  = [(JobStatus.error,
      [HintStatus.error; HintStatus.error; HintStatus.off; HintStatus.pending])].
Proof. reflexivity. Qed.

Example test_too_big_for_service_bus :
  (λ e, (result e, (λ h, length (Hint.messages h)) <$> IJob.hints (payload e)))
    <$> run bus413 jobAxe (engineDone tons)
  = [(Ok, [0; 0]); (Oversize, [2; 0]); (Ok, [1; 0])]%nat.
Proof. reflexivity. Qed.

Example test_one_message_if_smaller :
  (λ e, Hint.status <$> IJob.hints (payload e))
    <$> run busOk (job ["axe"; "content-type"; "disown-opener"]
                     [("axe", Literal "warning"); ("content-type", Literal "error")])
          (engineDone [engineMessage "axe" "Warning 1 axe"; engineMessage "axe" "Warning 2 axe"])
  = [[HintStatus.pending; HintStatus.pending; HintStatus.pending];
     [HintStatus.warning; HintStatus.pass; HintStatus.pending]].
Proof. reflexivity. Qed.

Example test_two_messages_if_bigger :
  (λ e, Hint.name <$> IJob.hints (payload e))
    <$> run busOk jobTwo
          (engineDone [engineMessage "axe" lipsum; engineMessage "content-type" lipsum])
  = [["axe"; "content-type"]; ["axe"]; ["content-type"]].
Proof. reflexivity. Qed.

Example test_too_many_errors :
  (λ e, (λ h, (Hint.status h, Hint.messages h)) <$> IJob.hints (payload e))
    <$> tail (run busOk jobTwo (engineDone [engineMessage "axe" (lipsum ++ lipsum)%string]))
  = [[(HintStatus.warning, [tooManyErrors]); (HintStatus.pass, [])]].
Proof. reflexivity. Qed.

Example test_max_run_time :
  (λ e, (IJob.status (payload e), IJob.error (payload e)))
    <$> run busOk jobDeadline Deadline
  = [(JobStatus.started, None); (JobStatus.finished, Some (Obj "TIMEOUT"))].
Proof. reflexivity. Qed.



Lemma engine_error_marks_configured_hints_witness :
  ∃ terminals,
    run busOk jobConfigured engineFailed
      = mkEmission (startedMessage jobConfigured 1000) Ok :: terminals
    ∧ terminals ≠ []
    ∧ Forall (λ e, IJob.status (payload e) = JobStatus.error) terminals
    ∧ ∃ e h', e ∈ terminals ∧ h' ∈ IJob.hints (payload e)
              ∧ Hint.name h' = "disown-opener" ∧ Hint.status h' = HintStatus.off.
Proof.
  destruct (engine_error_marks_configured_hints limit jobTextSize textSize busOk
              jobConfigured (mkJobResult (Some "Error running webhint") None false)
              1000 2000)
    as (_ & _ & _ & ts & Htrace & Hne & Hall & Hout & _); [reflexivity|].
  exists ts. split_and!; [exact Htrace|exact Hne| |].
  - eapply Forall_impl; [exact Hall|]. by intros e [? _].
  - destruct (Hout (pendingHint "disown-opener")) as (e & h' & He & Hh' & Hn & Hm).
    { do 2 apply list_elem_of_further. apply list_elem_of_here. }
    exists e, h'. split_and!; [exact He|exact Hh'|exact Hn|exact Hm].
Defined.

Lemma deadline_reports_finished_with_timeout_witness :
  ∃ terminals,
    run busOk jobTwo Deadline = mkEmission (startedMessage jobTwo 1000) Ok :: terminals
    ∧ terminals ≠ []
    ∧ Forall (λ e, IJob.status (payload e) = JobStatus.finished
                   ∧ IJob.error (payload e) = Some (Obj "TIMEOUT")) terminals
    ∧ ∃ e h', e ∈ terminals ∧ h' ∈ IJob.hints (payload e)
              ∧ Hint.name h' = "axe" ∧ Hint.status h' = HintStatus.pass.
Proof.
  destruct (deadline_reports_finished_with_timeout limit jobTextSize textSize busOk
              jobTwo 1000 2000)
    as (_ & _ & _ & _ & ts & Htrace & Hne & Hall & Hout).
  exists ts. split_and!; [exact Htrace|exact Hne| |].
  - eapply Forall_impl; [exact Hall|]. by intros e (? & _ & ? & _).
  - destruct (Hout (pendingHint "axe")) as (e & h' & He & Hh' & Hn & Hpass & _).
    { apply list_elem_of_here. }
    exists e, h'. split_and!; [exact He|exact Hh'|exact Hn|by apply Hpass].
Defined.


End WorkerFacts.


(** * Properties of the status averages *)

Module StatusFacts.
Import Status.


Lemma mean_None l : mean l = None ↔ l = [].
Proof. by destruct l. Qed.



Import Examples.A.

Example test_calculate_the_averages :
  IStatus.average <$> updateStatuses last now jobs = [Average.mk (Some 90000%Q) (Some 3000%Q)].
Proof. reflexivity. Qed.


End StatusFacts.


(** * Further properties of the sync merge *)

Module SyncMoreFacts.
Import Sync SyncExtra SyncFacts.

Lemma absorbAll_unnamed h rs :
  Forall (λ r, Rule.name r ≠ Rule.name h) rs → absorbAll h rs = h.
Proof.
  induction 1 as [|r rs Hr _ IH]; [done|].
  cbn. unfold absorb at 2. by rewrite decide_False.
Qed.

Lemma absorbAll_others h x rs :
  Rule.name x ≠ Rule.name h → absorbAll h (others x rs) = absorbAll h rs.
Proof.
  intros Hx. revert h Hx. induction rs as [|r rs IH]; intros h Hx; [done|].
  unfold others. rewrite filter_cons. case_decide as Hr; cbn.
  - apply IH. by rewrite absorb_name.
  - assert (Rule.name r = Rule.name x) as Hrx by (by destruct (decide (Rule.name r = Rule.name x))).
    assert (absorb h r = h) as -> by (unfold absorb; rewrite decide_False; [done|congruence]).
    by apply IH.
Qed.

Lemma absorbAll_app h a b : absorbAll h (a ++ b) = absorbAll (absorbAll h a) b.
Proof. apply foldl_app. Qed.

Lemma setRules_app db a b :
  setRules db (a ++ b) = setRules db a ≫= λ d, setRules d b.
Proof.
  revert db. induction a as [|r a IH]; intros db; [done|].
  cbn. destruct (setRule db r); [apply IH|done].
Qed.

(** The rule of the record that [getRule] finds under a name takes in all of
    the message; a rule behind it is out of reach. *)
Lemma setRules_first db rs db' n i h :
  setRules db rs = Some db' → getRule n db = Some (i, h) →
  db' !! i = Some (absorbAll h rs).
Proof.
  unfold getRule. revert rs db' i h.
  induction db as [|x t IH]; intros rs db' i h; [done|].
  rewrite setRules_cons. destruct (setRules t _) as [t'|] eqn:Ht; [|done].
  intros [= <-]. cbn. case_decide as Hx.
  - by intros [= <- <-].
  - destruct (list_find _ t) as [[j y]|] eqn:Hf; [|done]. cbn.
    intros [= <- <-]. simpl.
    assert (Rule.name y = n) as Hy by (by apply list_find_Some in Hf as (_ & ? & _)).
    rewrite (IH _ _ _ _ Ht eq_refl). f_equal. apply absorbAll_others. congruence.
Qed.

Lemma setRules_untouched db rs db' i h :
  setRules db rs = Some db' → db !! i = Some h →
  Forall (λ r, Rule.name r ≠ Rule.name h) rs → db' !! i = Some h.
Proof.
  revert rs db' i. induction db as [|x t IH]; intros rs db' i; [done|].
  rewrite setRules_cons. destruct (setRules t _) as [t'|] eqn:Ht; [|done].
  intros [= <-]. destruct i as [|i]; cbn.
  - intros [= ->] Hrs. by rewrite absorbAll_unnamed.
  - intros Hi Hrs. eapply IH; [done..|].
    unfold others. rewrite Forall_forall in *.
    intros r [_ Hr]%list_elem_of_filter. by apply Hrs.
Qed.

Lemma setRules_shadowed db rs db' i j h h0 :
  setRules db rs = Some db' → (j < i)%nat →
  db !! j = Some h0 → db !! i = Some h → Rule.name h0 = Rule.name h →
  db' !! i = Some h.
Proof.
  revert rs db' i j. induction db as [|x t IH]; intros rs db' i j; [done|].
  rewrite setRules_cons. destruct (setRules t _) as [t'|] eqn:Ht; [|done].
  intros [= <-] Hlt. destruct i as [|i]; [lia|]. destruct j as [|j]; cbn.
  - intros [= ->] Hi Hn. eapply setRules_untouched; [done..|].
    unfold others. apply Forall_forall. intros r [Hr _]%list_elem_of_filter. congruence.
  - intros Hj Hi Hn. eapply (IH _ _ i j); eauto with lia.
Qed.

Lemma setRules_all_settled db rs db' :
  setRules db rs = Some db' → Forall nonPending db → db' = db.
Proof.
  intros Hs Hall. apply list_eq. intros i.
  destruct (db !! i) as [h|] eqn:Hi.
  - eapply setRules_stable; [done..|]. by eapply Forall_lookup_1.
  - apply lookup_ge_None. rewrite (setRules_length _ _ _ Hs). by apply lookup_ge_None.
Qed.

Lemma sync_rules dbJob job dbRules :
  IJob.status dbJob ≠ JobStatus.error → IJob.status job ≠ JobStatus.started →
  setRules (IJob.rules dbJob) (IJob.rules job) = Some dbRules →
  IJob.rules (sync dbJob job) = dbRules.
Proof.
  intros He Hs Hr. unfold sync, listener, merge.
  rewrite !decide_False, Hr by done.
  case_decide; [done|]. by destruct (isJobFinished _).
Qed.

Lemma sync_not_error dbJob job :
  IJob.status dbJob ≠ JobStatus.error → IJob.status job ≠ JobStatus.error →
  IJob.status (sync dbJob job) ≠ JobStatus.error.
Proof.
  intros He Hj. listener_cases.
Qed.

(** X1: a run of the listener never changes the [id] of the record nor the
    names, the number and the order of its rules; a terminal message leaves
    [started] and the engine version alone, only an error message writes
    [error], and a rule whose name the message does not mention stays as it
    is. *)
Theorem merge_keeps_identity_and_names (dbJob job : IJob.t) :
  IJob.id (sync dbJob job) = IJob.id dbJob
  ∧ Rule.name <$> IJob.rules (sync dbJob job) = Rule.name <$> IJob.rules dbJob
  ∧ (IJob.status job ≠ JobStatus.started →
       IJob.started (sync dbJob job) = IJob.started dbJob
       ∧ IJob.sonarVersion (sync dbJob job) = IJob.sonarVersion dbJob)
  ∧ (IJob.status job ≠ JobStatus.error →
       IJob.error (sync dbJob job) = IJob.error dbJob)
  ∧ (∀ i h, IJob.rules dbJob !! i = Some h →
       Forall (λ r, Rule.name r ≠ Rule.name h) (IJob.rules job) →
       IJob.rules (sync dbJob job) !! i = Some h).
Proof.
  split_and!.
  - listener_cases.
  - apply sync_names.
  - intros Hs. listener_cases.
  - intros Hj. listener_cases.
  - intros i h Hi Hrs. listener_cases; by eapply setRules_untouched.
Qed.

Lemma absorbAll_pending_spec h rs :
  Rule.status h = RuleStatus.pending →
  match list_find nonPending (candidates (Rule.name h) rs) with
  | Some (_, r) => absorbAll h rs = Rule.mk (Rule.name h) (Rule.status r) (Rule.messages r)
  | None =>
      match last (candidates (Rule.name h) rs) with
      | Some r => absorbAll h rs = Rule.mk (Rule.name h) RuleStatus.pending (Rule.messages r)
      | None => absorbAll h rs = h
      end
  end.
Proof.
  revert h. induction rs as [|r rs IH]; intros h Hp; [done|].
  unfold candidates. rewrite filter_cons. cbn [absorbAll foldl].
  destruct (decide (Rule.name r = Rule.name h)) as [Hn|Hn].
  - assert (absorb h r = Rule.mk (Rule.name h) (Rule.status r) (Rule.messages r)) as Habs
      by (unfold absorb; by rewrite !decide_True).
    cbn [list_find]. destruct (decide (nonPending r)) as [Hr|Hr].
    + rewrite Habs. apply absorbAll_settled. done.
    + assert (Rule.status r = RuleStatus.pending) as Hrp
        by (unfold nonPending in Hr; by destruct (decide (Rule.status r = RuleStatus.pending))).
      specialize (IH (absorb h r)). rewrite absorb_name in IH. unfold candidates in IH.
      rewrite Habs in IH |- *. cbn [Rule.status Rule.name] in IH.
      specialize (IH Hrp). fold (absorbAll (Rule.mk (Rule.name h) (Rule.status r) (Rule.messages r)) rs).
      destruct (list_find nonPending _) as [[k r']|]; cbn; [done|].
      rewrite last_cons. destruct (last _) as [r'|]; [done|]. by rewrite IH, Hrp.
  - assert (absorb h r = h) as -> by (unfold absorb; rewrite decide_False; [done|congruence]).
    by apply IH.
Qed.

(** X2: for a record that is not in [error] and a terminal message all of
    whose rule names the record lists: when the message carries several
    rules of one name, the rule that [getRule] finds in the record under
    that name (the first of that name), if it is pending, takes the first
    of them whose status is not pending; when all of them are pending it
    stays pending with the messages of the last; when there is none it is
    unchanged. *)
Theorem first_settled_report_wins (dbJob job : IJob.t) (n : string) (i : nat) (h : Rule.t) :
  IJob.status dbJob ≠ JobStatus.error →
  IJob.status job ≠ JobStatus.started →
  rulesKnown (IJob.rules dbJob) (IJob.rules job) →
  getRule n (IJob.rules dbJob) = Some (i, h) →
  Rule.status h = RuleStatus.pending →
  ∃ h', IJob.rules (sync dbJob job) !! i = Some h'
    ∧ Rule.name h' = n
    ∧ match list_find nonPending (candidates n (IJob.rules job)) with
      | Some (_, r) => Rule.status h' = Rule.status r ∧ Rule.messages h' = Rule.messages r
      | None =>
          match last (candidates n (IJob.rules job)) with
          | Some r => Rule.status h' = RuleStatus.pending
                      ∧ Rule.messages h' = Rule.messages r
          | None => h' = h
          end
      end.
Proof.
  intros He Hs [db' Hr]%setRules_is_Some Hg Hp.
  assert (Rule.name h = n) as Hn
    by (unfold getRule in Hg; by apply list_find_Some in Hg as (_ & ? & _)).
  exists (absorbAll h (IJob.rules job)).
  rewrite (sync_rules _ _ _ He Hs Hr), (setRules_first _ _ _ _ _ _ Hr Hg).
  split_and!; [done|by rewrite absorbAll_name|].
  pose proof (absorbAll_pending_spec h (IJob.rules job) Hp) as Hspec.
  rewrite Hn in Hspec.
  destruct (list_find nonPending _) as [[k r]|]; [by rewrite Hspec|].
  destruct (last _) as [r|]; by rewrite Hspec.
Qed.

Lemma sync_shadowed dbJob job i j h h0 :
  (j < i)%nat → IJob.rules dbJob !! j = Some h0 → IJob.rules dbJob !! i = Some h →
  Rule.name h0 = Rule.name h →
  IJob.rules (sync dbJob job) !! i = Some h.
Proof.
  intros Hlt Hj Hi Hn. listener_cases; by eapply setRules_shadowed.
Qed.

(** X3: a rule of the record that stands behind another rule of the same
    name is never updated, whatever is merged; if it is pending, the job
    never becomes finished. *)
Theorem second_rule_of_a_name_is_never_updated
    (dbJob : IJob.t) (jobs : list IJob.t) (i j : nat) (h h0 : Rule.t) :
  (j < i)%nat →
  IJob.rules dbJob !! j = Some h0 → IJob.rules dbJob !! i = Some h →
  Rule.name h0 = Rule.name h →
  IJob.rules (syncAll dbJob jobs) !! i = Some h
  ∧ (Rule.status h = RuleStatus.pending → IJob.status dbJob ≠ JobStatus.finished →
       IJob.status (syncAll dbJob jobs) ≠ JobStatus.finished).
Proof.
  intros Hlt Hj Hi Hn.
  assert (IJob.rules (syncAll dbJob jobs) !! i = Some h) as Hkeep.
  { revert dbJob h0 Hj Hi Hn. induction jobs as [|job jobs IH]; intros dbJob h0 Hj Hi Hn; [done|].
    cbn. pose proof (sync_names dbJob job) as Hnames.
    assert ((Rule.name <$> IJob.rules (sync dbJob job)) !! j = Some (Rule.name h0)) as Hj'
      by (by rewrite Hnames, list_lookup_fmap, Hj).
    rewrite list_lookup_fmap in Hj'.
    destruct (IJob.rules (sync dbJob job) !! j) as [h0'|] eqn:Hj''; [|done].
    injection Hj' as Hn'.
    apply (IH _ h0'); [done| |congruence]. by eapply sync_shadowed. }
  split; [done|]. intros Hp Hnf Hfin.
  assert (settled (syncAll dbJob jobs)) as Hset
    by (apply syncAll_settled; by intros ?).
  specialize (Hset Hfin).
  by apply (Forall_lookup_1 _ _ _ _ Hset Hkeep).
Qed.

(** The record a terminal message that is not an error leaves, once its
    rules gave [dbRules]. *)
Lemma sync_closed dbJob job dbRules :
  IJob.status dbJob ≠ JobStatus.error →
  IJob.status job ≠ JobStatus.started → IJob.status job ≠ JobStatus.error →
  setRules (IJob.rules dbJob) (IJob.rules job) = Some dbRules →
  sync dbJob job =
    if isJobFinished (IJob.setRules dbRules dbJob)
    then IJob.setStatus (IJob.status job)
           (IJob.setFinished (IJob.finished job) (IJob.setRules dbRules dbJob))
    else IJob.setRules dbRules dbJob.
Proof. intros He Hs Hj Hr. unfold sync. by rewrite (sync_terminal _ _ dbRules). Qed.

Lemma isJobFinished_rules a b :
  IJob.rules a = IJob.rules b → isJobFinished a = isJobFinished b.
Proof. unfold isJobFinished. by intros ->. Qed.

Lemma isJobFinished_fixes dbJob rs dbRules :
  isJobFinished dbJob = true → setRules (IJob.rules dbJob) rs = Some dbRules →
  dbRules = IJob.rules dbJob.
Proof. intros Hf%isJobFinished_spec Hr. by eapply setRules_all_settled. Qed.

Lemma absorbAll_comm h a b :
  disjointNames a b → absorbAll (absorbAll h a) b = absorbAll (absorbAll h b) a.
Proof.
  intros Hd.
  destruct (decide (Exists (λ r, Rule.name r = Rule.name h) a)) as [Ha|Ha].
  - assert (Forall (λ r, Rule.name r ≠ Rule.name h) b) as Hb.
    { apply Forall_forall. intros rb Hrb Heq.
      apply Exists_exists in Ha as (ra & Hra & Hna). apply (Hd ra rb); congruence. }
    rewrite (absorbAll_unnamed h b) by done.
    apply absorbAll_unnamed. by rewrite absorbAll_name.
  - apply not_Exists_Forall in Ha; [|apply _].
    rewrite (absorbAll_unnamed h a) by done.
    symmetry. apply absorbAll_unnamed. by rewrite absorbAll_name.
Qed.

Lemma disjointNames_others h a b :
  disjointNames a b → disjointNames (others h a) (others h b).
Proof.
  intros Hd ra rb [_ Hra]%list_elem_of_filter [_ Hrb]%list_elem_of_filter. by apply Hd.
Qed.

Lemma setRules_comm db a b da dab :
  disjointNames a b → setRules db a = Some da → setRules da b = Some dab →
  ∃ dbb, setRules db b = Some dbb ∧ setRules dbb a = Some dab.
Proof.
  revert a b da dab. induction db as [|h t IH]; intros a b da dab Hd.
  - rewrite setRules_nil. destruct a; [|done]. intros [= <-].
    rewrite setRules_nil. destruct b; [|done]. intros [= <-]. by exists [].
  - rewrite setRules_cons. destruct (setRules t (others h a)) as [ta|] eqn:Hta; [|done].
    intros [= <-]. rewrite setRules_cons. unfold others at 1. rewrite absorbAll_name.
    fold (others h b).
    destruct (setRules ta (others h b)) as [tab|] eqn:Htab; [|done].
    intros [= <-].
    destruct (IH _ _ _ _ (disjointNames_others h _ _ Hd) Hta Htab) as (tb & Htb & Htba).
    exists (absorbAll h b :: tb). rewrite !setRules_cons, Htb. split; [done|].
    unfold others at 1. rewrite absorbAll_name. fold (others h a).
    rewrite Htba. cbn. by rewrite (absorbAll_comm h a b Hd).
Qed.

(** X4: two terminal messages of one status that is not an error, which
    report no rule name in common, can be merged in either order: the two
    records agree in everything but, possibly, the [finished] stamp, which
    is that of the message merged last when it completes the job. *)
Theorem merges_of_distinct_rules_commute (dbJob a b : IJob.t) :
  IJob.status dbJob ≠ JobStatus.error →
  IJob.status a ≠ JobStatus.started → IJob.status a ≠ JobStatus.error →
  IJob.status b = IJob.status a →
  disjointNames (IJob.rules a) (IJob.rules b) →
  rulesKnown (IJob.rules dbJob) (IJob.rules a) →
  rulesKnown (IJob.rules dbJob) (IJob.rules b) →
  sameButFinished (sync (sync dbJob a) b) (sync (sync dbJob b) a)
  ∧ (IJob.finished a = IJob.finished b →
       sync (sync dbJob a) b = sync (sync dbJob b) a).
Proof.
  intros He Hs Hj Hab Hd [Ra HRa]%setRules_is_Some Hkb.
  assert (is_Some (setRules Ra (IJob.rules b))) as [Rab HRab].
  { apply setRules_is_Some. eapply rulesKnown_names; [|exact Hkb].
    by eapply setRules_names. }
  destruct (setRules_comm _ _ _ _ _ Hd HRa HRab) as (Rb & HRb & HRba).
  assert (IJob.status b ≠ JobStatus.started) as Hsb by congruence.
  assert (IJob.status b ≠ JobStatus.error) as Hjb by congruence.
  rewrite (sync_closed dbJob a Ra), (sync_closed dbJob b Rb) by done.
  assert (isJobFinished (IJob.setRules Ra dbJob) = true → Rab = Ra) as Hfa.
  { intros Hf. by eapply (isJobFinished_fixes (IJob.setRules Ra dbJob)). }
  assert (isJobFinished (IJob.setRules Rb dbJob) = true → Rab = Rb) as Hfb.
  { intros Hf. by eapply (isJobFinished_fixes (IJob.setRules Rb dbJob)). }
  destruct (isJobFinished (IJob.setRules Ra dbJob)) eqn:Fa;
    destruct (isJobFinished (IJob.setRules Rb dbJob)) eqn:Fb;
    rewrite (sync_closed _ b Rab), (sync_closed _ a Rab) by done;
    try (specialize (Hfa eq_refl); subst Rab);
    try (specialize (Hfb eq_refl); subst Rab);
    unfold isJobFinished in *; cbn in *;
    rewrite ?Fa, ?Fb; unfold sameButFinished; cbn;
    try (destruct (forallb _ Rab) eqn:Fab; cbn);
    rewrite ?Hab; split; try done; by intros ->.
Qed.

(** X5: for a record that is not in [error] and a terminal message all of
    whose rule names the record lists: if the message is not an error and
    is delivered in two parts, its rules split in two, merging the parts
    one after the other leaves the record the whole message leaves; if it
    is an error message the second part is dropped, its rules are not
    stored. *)
Theorem split_message_merges_as_the_whole (dbJob m m1 m2 : IJob.t) :
  IJob.status dbJob ≠ JobStatus.error →
  IJob.status m ≠ JobStatus.started →
  IJob.status m1 = IJob.status m → IJob.status m2 = IJob.status m →
  IJob.finished m1 = IJob.finished m → IJob.finished m2 = IJob.finished m →
  IJob.rules m = IJob.rules m1 ++ IJob.rules m2 →
  rulesKnown (IJob.rules dbJob) (IJob.rules m) →
  (IJob.status m ≠ JobStatus.error → sync (sync dbJob m1) m2 = sync dbJob m)
  ∧ (IJob.status m = JobStatus.error → sync (sync dbJob m1) m2 = sync dbJob m1).
Proof.
  intros He Hs Hs1 Hs2 Hf1 Hf2 Hrules [R HR]%setRules_is_Some.
  rewrite Hrules, setRules_app in HR.
  destruct (setRules (IJob.rules dbJob) (IJob.rules m1)) as [R1|] eqn:HR1; [|done].
  cbn in HR. split.
  - intros Hj.
    assert (setRules (IJob.rules dbJob) (IJob.rules m) = Some R) as HRm
      by (by rewrite Hrules, setRules_app, HR1).
    assert (IJob.status m1 ≠ JobStatus.started) by congruence.
    assert (IJob.status m1 ≠ JobStatus.error) by congruence.
    assert (IJob.status m2 ≠ JobStatus.started) by congruence.
    assert (IJob.status m2 ≠ JobStatus.error) by congruence.
    rewrite (sync_closed dbJob m R), (sync_closed dbJob m1 R1) by done.
    assert (isJobFinished (IJob.setRules R1 dbJob) = true → R = R1) as Hfix.
    { intros Hf. by eapply (isJobFinished_fixes (IJob.setRules R1 dbJob)). }
    destruct (isJobFinished (IJob.setRules R1 dbJob)) eqn:F1;
      rewrite (sync_closed _ m2 R) by (cbn; congruence);
      try (specialize (Hfix eq_refl); subst R);
      unfold isJobFinished in *; cbn in *; rewrite ?F1;
      try (destruct (forallb _ R) eqn:FR; cbn);
      by rewrite ?Hs1, ?Hs2, ?Hf1, ?Hf2.
  - intros Hj. apply sync_error_absorbing.
    apply sync_error_dominating; [congruence|]. apply setRules_is_Some. eauto.
Qed.

(** X6: under the messages a worker sends (started, finished or error) the
    status of the record never moves back in the order pending, started,
    finished, error, one message or many. *)
Theorem status_never_moves_back (dbJob : IJob.t) (jobs : list IJob.t) :
  Forall (λ job, IJob.status job ≠ JobStatus.pending) jobs →
  (rank (IJob.status dbJob) ≤ rank (IJob.status (syncAll dbJob jobs)))%nat.
Proof.
  revert dbJob. induction jobs as [|job jobs IH]; intros dbJob Hall; [done|].
  apply Forall_cons in Hall as [Hjob Hall]. cbn.
  etrans; [|by apply IH]. clear IH Hall.
  destruct (decide (IJob.status dbJob = JobStatus.error)) as [He|He].
  { by rewrite sync_error_absorbing. }
  destruct (decide (IJob.status job = JobStatus.error)) as [Hj|Hj].
  { destruct (decide (rulesKnown (IJob.rules dbJob) (IJob.rules job))) as [Hk|Hk].
    - rewrite (sync_error_dominating dbJob job) by done.
      destruct (IJob.status dbJob); cbn; lia.
    - apply setRules_throws in Hk. unfold sync.
      rewrite listener_throws; [done..|congruence|done]. }
  destruct (decide (IJob.status job = JobStatus.started)) as [Hs|Hs].
  { unfold sync, listener, merge. rewrite decide_False, decide_True by done.
    destruct dbJob as [? st ? ? ? ? ? ? ?]. cbn in *. rewrite Hs.
    destruct st; vm_compute; lia. }
  assert (IJob.status job = JobStatus.finished) as Hf
    by (destruct (IJob.status job); congruence).
  destruct (setRules (IJob.rules dbJob) (IJob.rules job)) as [R|] eqn:HR.
  - rewrite (sync_closed _ _ R) by done.
    destruct (isJobFinished _); cbn; [|done]. rewrite Hf.
    destruct (IJob.status dbJob); cbn; try lia. done.
  - unfold sync. by rewrite listener_throws.
Qed.

Lemma syncAll_not_error dbJob jobs :
  IJob.status dbJob ≠ JobStatus.error →
  Forall (λ job, IJob.status job ≠ JobStatus.error) jobs →
  IJob.status (syncAll dbJob jobs) ≠ JobStatus.error.
Proof.
  revert dbJob. induction jobs as [|job jobs IH]; intros dbJob He Hall; [done|].
  apply Forall_cons in Hall as [Hj Hall]. cbn. apply IH; [|done]. by apply sync_not_error.
Qed.

Lemma getRule_NoDup db i h :
  NoDup (Rule.name <$> db) → db !! i = Some h → getRule (Rule.name h) db = Some (i, h).
Proof.
  intros Hnd Hi. unfold getRule. apply list_find_Some. split_and!; [done..|].
  intros j y Hj Hlt Hy.
  assert (j = i); [|lia].
  eapply (NoDup_lookup _ _ _ (Rule.name h) Hnd).
  - by rewrite list_lookup_fmap, Hj, <- Hy.
  - by rewrite list_lookup_fmap, Hi.
Qed.

(** A rule that a terminal message reports with a settled status is settled
    after the merge, when the names of the record are distinct. *)
Lemma sync_reported dbJob job i h :
  NoDup (Rule.name <$> IJob.rules dbJob) →
  IJob.status dbJob ≠ JobStatus.error → IJob.status job ≠ JobStatus.started →
  rulesKnown (IJob.rules dbJob) (IJob.rules job) →
  IJob.rules dbJob !! i = Some h → reports (Rule.name h) job →
  ∃ h', IJob.rules (sync dbJob job) !! i = Some h' ∧ nonPending h'.
Proof.
  intros Hnd He Hs [R HR]%setRules_is_Some Hi Hrep.
  rewrite (sync_rules _ _ _ He Hs HR).
  rewrite (setRules_first _ _ _ _ _ _ HR (getRule_NoDup _ _ _ Hnd Hi)).
  eexists. split; [done|].
  destruct (decide (Rule.status h = RuleStatus.pending)) as [Hp|Hp];
    [|by rewrite absorbAll_settled].
  pose proof (absorbAll_pending_spec h (IJob.rules job) Hp) as Hspec.
  destruct (list_find nonPending _) as [[k r]|] eqn:Hf.
  - apply list_find_Some in Hf as (_ & Hr & _). rewrite Hspec. exact Hr.
  - apply list_find_None in Hf. unfold reports in Hrep.
    apply Exists_exists in Hrep as (r & Hin & Hn & Hr).
    rewrite Forall_forall in Hf. destruct (Hf r); [|done].
    unfold candidates. by apply list_elem_of_filter.
Qed.

Lemma syncAll_reported dbJob jobs :
  NoDup (Rule.name <$> IJob.rules dbJob) →
  IJob.status dbJob ≠ JobStatus.error →
  Forall (λ job, IJob.status job = JobStatus.finished
                 ∧ rulesKnown (IJob.rules dbJob) (IJob.rules job)) jobs →
  (∀ i h, IJob.rules dbJob !! i = Some h →
      nonPending h ∨ Exists (reports (Rule.name h)) jobs) →
  Forall nonPending (IJob.rules (syncAll dbJob jobs)).
Proof.
  revert dbJob. induction jobs as [|job jobs IH]; intros dbJob Hnd He Hall Hcov.
  - apply Forall_lookup. intros i h Hi.
    destruct (Hcov i h Hi) as [?|Hex]; [done|by inversion Hex].
  - apply Forall_cons in Hall as [[Hf Hk] Hall]. cbn.
    pose proof (sync_names dbJob job) as Hnames.
    apply IH.
    + by rewrite Hnames.
    + apply sync_not_error; [done|]. by rewrite Hf.
    + eapply Forall_impl; [exact Hall|]. cbn. intros j [? ?]. split; [done|].
      by eapply rulesKnown_names.
    + intros i h' Hi'.
      assert (∃ h, IJob.rules dbJob !! i = Some h ∧ Rule.name h = Rule.name h')
        as (h & Hi & Hn).
      { assert ((Rule.name <$> IJob.rules dbJob) !! i = Some (Rule.name h')) as Hl
          by (by rewrite <- Hnames, list_lookup_fmap, Hi').
        rewrite list_lookup_fmap in Hl.
        destruct (IJob.rules dbJob !! i) as [h|]; [|done].
        injection Hl as Hn. eauto. }
      destruct (Hcov i h Hi) as [Hnp|Hex].
      * left. rewrite (sync_stable _ job _ _ Hi Hnp) in Hi'. by injection Hi' as <-.
      * apply Exists_cons in Hex as [Hrep|Hex].
        -- left.
           assert (IJob.status job ≠ JobStatus.started) as Hs by (by rewrite Hf).
           destruct (sync_reported dbJob job i h) as (h'' & Hi'' & Hnp); [done..|].
           rewrite Hi' in Hi''. by injection Hi'' as <-.
        -- right. by rewrite <- Hn.
Qed.

(** X7: a record with distinct rule names, not in error, is finished once
    finished messages have reported every rule that was pending with a
    settled status, whatever their order and repetitions; the [finished]
    stamp of the record is that of the message merged last. *)
Theorem job_finishes_when_all_rules_are_reported
    (dbJob : IJob.t) (jobs : list IJob.t) (job : IJob.t) :
  NoDup (Rule.name <$> IJob.rules dbJob) →
  IJob.status dbJob ≠ JobStatus.error →
  Forall (λ job, IJob.status job = JobStatus.finished
                 ∧ rulesKnown (IJob.rules dbJob) (IJob.rules job)) (jobs ++ [job]) →
  (∀ h, h ∈ IJob.rules dbJob →
      nonPending h ∨ Exists (reports (Rule.name h)) (jobs ++ [job])) →
  IJob.status (syncAll dbJob (jobs ++ [job])) = JobStatus.finished
  ∧ IJob.finished (syncAll dbJob (jobs ++ [job])) = IJob.finished job
  ∧ Forall nonPending (IJob.rules (syncAll dbJob (jobs ++ [job]))).
Proof.
  intros Hnd He Hall Hcov.
  assert (Forall nonPending (IJob.rules (syncAll dbJob (jobs ++ [job])))) as Hdone.
  { apply syncAll_reported; [done..|]. intros i h Hi. apply Hcov.
    by eapply list_elem_of_lookup_2. }
  split_and!; [| |done].
  all: unfold syncAll in *; rewrite foldl_app in *; cbn [foldl] in *.
  all: fold (syncAll dbJob jobs) in *.
  all: apply Forall_app in Hall as [Hjobs [[Hf Hk] _]%Forall_cons].
  all: assert (IJob.status (syncAll dbJob jobs) ≠ JobStatus.error) as He'
    by (apply syncAll_not_error; [done|];
        eapply Forall_impl; [exact Hjobs|]; cbn; intros j [-> _]; done).
  all: assert (is_Some (setRules (IJob.rules (syncAll dbJob jobs)) (IJob.rules job)))
    as [R HR]
    by (apply setRules_is_Some; eapply rulesKnown_names; [apply syncAll_names|done]).
  all: assert (IJob.status job ≠ JobStatus.started) as Hs by (by rewrite Hf).
  all: assert (IJob.status job ≠ JobStatus.error) as Hj by (by rewrite Hf).
  all: rewrite (sync_closed _ _ R He' Hs Hj HR) in *.
  all: assert (isJobFinished (IJob.setRules R (syncAll dbJob jobs)) = true) as Hfin
    by (apply isJobFinished_spec; cbn;
        destruct (isJobFinished (IJob.setRules R (syncAll dbJob jobs))); exact Hdone).
  all: by rewrite Hfin.
Qed.

Import Examples.S Examples.S2.

Lemma merge_keeps_identity_and_names_witness :
  IJob.started (sync dbPending msgFinished1) = None
  ∧ IJob.rules (sync dbPending msgFinished1) !! 1%nat
      = Some (Rule.mk "content-type" RuleStatus.pending []).
Proof.
  destruct (merge_keeps_identity_and_names dbPending msgFinished1)
    as (_ & _ & Hstart & _ & Hrule).
  split.
  - by apply Hstart.
  - apply Hrule; [reflexivity|]. apply Forall_singleton. discriminate.
Defined.

Lemma first_settled_report_wins_witness :
  ∃ h', IJob.rules (sync dbPending msgThrice) !! 0%nat = Some h'
        ∧ Rule.status h' = RuleStatus.warning ∧ Rule.messages h' = [found].
Proof.
  destruct (first_settled_report_wins dbPending msgThrice "axe" 0
              (Rule.mk "axe" RuleStatus.pending []))
    as (h' & Hl & _ & Hm); [discriminate..| |reflexivity|reflexivity|].
  - apply (bool_decide_unpack _). vm_compute. exact I.
  - exists h'. vm_compute in Hm. by destruct Hm.
Defined.

Lemma second_rule_of_a_name_is_never_updated_witness :
  IJob.rules (syncAll dbTwice [msgAxe; msgAxe]) !! 1%nat
    = Some (Rule.mk "axe" RuleStatus.pending [])
  ∧ IJob.status (syncAll dbTwice [msgAxe; msgAxe]) ≠ JobStatus.finished.
Proof.
  destruct (second_rule_of_a_name_is_never_updated dbTwice [msgAxe; msgAxe] 1 0
              (Rule.mk "axe" RuleStatus.pending []) (Rule.mk "axe" RuleStatus.pending []))
    as [Hkeep Hnever]; [lia|reflexivity..|].
  split; [exact Hkeep|]. apply Hnever; [reflexivity|discriminate].
Defined.

Lemma merges_of_distinct_rules_commute_witness :
  sameButFinished (sync (sync dbPending msgFinished1) msgFinished2)
    (sync (sync dbPending msgFinished2) msgFinished1).
Proof.
  destruct (merges_of_distinct_rules_commute dbPending msgFinished1 msgFinished2)
    as [Hsame _]; [discriminate| discriminate| discriminate| reflexivity| | | |exact Hsame].
  - intros ra rb ->%list_elem_of_singleton ->%list_elem_of_singleton. discriminate.
  - apply (bool_decide_unpack _). vm_compute. exact I.
  - apply (bool_decide_unpack _). vm_compute. exact I.
Defined.

Lemma split_message_merges_as_the_whole_witness :
  sync (sync dbPending part1) part2 = sync dbPending whole.
Proof.
  destruct (split_message_merges_as_the_whole dbPending whole part1 part2) as [Hsame _].
  - discriminate.
  - discriminate.
  - reflexivity.
  - reflexivity.
  - reflexivity.
  - reflexivity.
  - reflexivity.
  - apply (bool_decide_unpack _). vm_compute. exact I.
  - apply Hsame. discriminate.
Defined.

Lemma status_never_moves_back_witness :
  (rank (IJob.status dbFinished)
   ≤ rank (IJob.status (syncAll dbFinished [msgStartedAgain; msgError])))%nat.
Proof.
  apply status_never_moves_back. repeat constructor; discriminate.
Defined.

Lemma job_finishes_when_all_rules_are_reported_witness :
  IJob.status (syncAll dbPending ([msgFinished2; msgFinished1] ++ [msgFinished2]))
    = JobStatus.finished
  ∧ IJob.finished (syncAll dbPending ([msgFinished2; msgFinished1] ++ [msgFinished2]))
    = Some 4000.
Proof.
  destruct (job_finishes_when_all_rules_are_reported dbPending
              [msgFinished2; msgFinished1] msgFinished2) as (Hs & Hf & _).
  - apply (bool_decide_unpack _). vm_compute. exact I.
  - discriminate.
  - apply (bool_decide_unpack _). vm_compute. exact I.
  - intros h [->|[->|[]%elem_of_nil]%elem_of_cons]%elem_of_cons; right.
    + apply Exists_cons_tl, Exists_cons_hd, Exists_cons_hd. split; [reflexivity|discriminate].
    + apply Exists_cons_hd, Exists_cons_hd. split; [reflexivity|discriminate].
  - split; [exact Hs|exact Hf].
Defined.

Lemma listener_returns dbJob job :
  rulesKnown (IJob.rules dbJob) (IJob.rules job) → listener (Some dbJob) job ≠ Thrown.
Proof.
  intros [R HR]%setRules_is_Some. cbn. unfold merge.
  repeat (case_decide; try done); rewrite HR; try done. by destruct (isJobFinished _).
Qed.

(** X13: the listener takes the lock of the job first and releases it last
    on every path that returns, with the update, if any, in between; but
    when the loop of [setRules] is reached with a message that names a rule
    the record does not have, the run ends after the lookup: nothing is
    written and the lock is not released. *)
Theorem lock_is_released_unless_the_merge_throws (getJob : option IJob.t) (job : IJob.t) :
  (getJob = None
   ∨ (∃ dbJob, getJob = Some dbJob
        ∧ (IJob.status dbJob = JobStatus.error ∨ IJob.status job = JobStatus.started
           ∨ rulesKnown (IJob.rules dbJob) (IJob.rules job))) →
   head (listenerCalls getJob job) = Some (Lock (IJob.id job))
   ∧ last (listenerCalls getJob job) = Some (Unlock (IJob.id job))
   ∧ length (filter (λ c, c = Unlock (IJob.id job)) (listenerCalls getJob job)) = 1%nat)
  ∧ (∀ dbJob rule,
       getJob = Some dbJob →
       IJob.status dbJob ≠ JobStatus.error → IJob.status job ≠ JobStatus.started →
       rule ∈ IJob.rules job → getRule (Rule.name rule) (IJob.rules dbJob) = None →
       listenerCalls getJob job = [Lock (IJob.id job); GetJob (IJob.id job)]).
Proof.
  split.
  - assert (∀ o, o ≠ Thrown →
      (o = listener getJob job) →
      head (listenerCalls getJob job) = Some (Lock (IJob.id job))
      ∧ last (listenerCalls getJob job) = Some (Unlock (IJob.id job))
      ∧ length (filter (λ c, c = Unlock (IJob.id job)) (listenerCalls getJob job)) = 1%nat)
      as Hreturns.
    { intros o Ho ->. unfold listenerCalls.
      destruct (listener getJob job); [| |done]; cbn;
        (split_and!; [done..|]); rewrite ?filter_cons, ?filter_nil;
        repeat case_decide; done. }
    intros [->|(dbJob & -> & Hcase)]; [by apply (Hreturns Skipped)|].
    apply (Hreturns (listener (Some dbJob) job)); [|done].
    destruct (decide (IJob.status dbJob = JobStatus.error)) as [He|He].
    { cbn. unfold merge. by rewrite decide_True. }
    destruct (decide (IJob.status job = JobStatus.started)) as [Hs|Hs].
    { cbn. unfold merge. by rewrite decide_False, decide_True. }
    destruct Hcase as [?|[?|Hk]]; [done..|]. by apply listener_returns.
  - intros dbJob rule -> He Hs Hin Hnone. unfold listenerCalls.
    assert (listener (Some dbJob) job = Thrown) as ->; [|done].
    apply listener_throws; [done..|]. apply setRules_throws.
    intros Hk. unfold rulesKnown in Hk. rewrite Forall_forall in Hk.
    destruct (Hk rule Hin) as [? ?]. congruence.
Qed.

Lemma lock_is_released_unless_the_merge_throws_witness :
  listenerCalls (Some dbPending) msgUnknown = [Lock 7; GetJob 7]
  ∧ last (listenerCalls (Some dbPending) msgFinished1) = Some (Unlock 7).
Proof.
  destruct (lock_is_released_unless_the_merge_throws (Some dbPending) msgUnknown)
    as [_ Hheld].
  destruct (lock_is_released_unless_the_merge_throws (Some dbPending) msgFinished1)
    as [Hreleased _].
  split.
  - apply (Hheld dbPending (Rule.mk "manifest-exists" RuleStatus.pass []));
      [reflexivity|discriminate|discriminate| |reflexivity].
    apply list_elem_of_further, list_elem_of_here.
  - apply Hreleased. right. exists dbPending. split; [reflexivity|].
    right. right. apply (bool_decide_unpack _). vm_compute. exact I.
Defined.

End SyncMoreFacts.


(** * Properties of the backup rotation *)

Module BackupFacts.
Import Stdlib.Strings.Ascii.
Import Backup.

Lemma ascii_compare_refl a : Ascii.compare a a = Eq.
Proof. unfold Ascii.compare. apply N.compare_refl. Qed.

Lemma string_compare_trans s1 s2 s3 :
  String.compare s1 s2 ≠ Gt → String.compare s2 s3 ≠ Gt → String.compare s1 s3 ≠ Gt.
Proof.
  revert s2 s3. induction s1 as [|a s1 IH]; intros [|b s2] [|c s3]; cbn; try done.
  unfold Ascii.compare.
  destruct (N.compare_spec (Ascii.N_of_ascii a) (Ascii.N_of_ascii b)) as [Hab|Hab|Hab];
    destruct (N.compare_spec (Ascii.N_of_ascii b) (Ascii.N_of_ascii c)) as [Hbc|Hbc|Hbc];
    destruct (N.compare_spec (Ascii.N_of_ascii a) (Ascii.N_of_ascii c)) as [Hac|Hac|Hac];
    try done; try lia.
  apply IH.
Qed.

Lemma leb_trans s1 s2 s3 :
  String.leb s1 s2 = true → String.leb s2 s3 = true → String.leb s1 s3 = true.
Proof.
  unfold String.leb. intros H12 H23.
  pose proof (string_compare_trans s1 s2 s3) as Htr.
  destruct (String.compare s1 s2), (String.compare s2 s3), (String.compare s1 s3);
    try done; exfalso; refine (Htr _ _ eq_refl); discriminate.
Qed.

Lemma leb_refl s : String.leb s s = true.
Proof. by destruct (String.leb_total s s). Qed.

#[local] Instance notNewer_trans : Transitive notNewer.
Proof. intros a b c. apply leb_trans. Qed.

#[local] Instance notNewer_total : Total notNewer.
Proof. intros a b. apply String.leb_total. Qed.

Lemma insertBy_perm (x : Blob) l : insertBy blobKey x l ≡ₚ x :: l.
Proof.
  induction l as [|y l IH]; cbn; [done|].
  destruct (String.leb _ _); [done|]. by rewrite IH, Permutation_swap.
Qed.

Lemma sortBy_perm (l : list Blob) : sortBy blobKey l ≡ₚ l.
Proof.
  induction l as [|x l IH]; cbn; [done|]. by rewrite insertBy_perm, IH.
Qed.

Lemma insertBy_sorted x l :
  StronglySorted notNewer l → StronglySorted notNewer (insertBy blobKey x l).
Proof.
  induction 1 as [|y l Hl IH Hy]; cbn; [by repeat constructor|].
  destruct (String.leb (blobKey x) (blobKey y)) eqn:Hxy.
  - constructor; [by constructor|]. constructor; [done|].
    eapply Forall_impl; [exact Hy|]. intros z Hz. by etrans.
  - constructor; [done|]. rewrite insertBy_perm. constructor; [|done].
    destruct (total notNewer x y) as [Hle|Hle]; [|done].
    unfold notNewer in Hle. congruence.
Qed.

Lemma sortBy_sorted l : StronglySorted notNewer (sortBy blobKey l).
Proof.
  induction l as [|x l IH]; cbn; [constructor|]. by apply insertBy_sorted.
Qed.

Lemma reverse_sorted l :
  StronglySorted notNewer l → StronglySorted (flip notNewer) (reverse l).
Proof.
  induction 1 as [|x l Hl IH Hx]; [constructor|].
  rewrite reverse_cons. apply StronglySorted_app_2; [|done|by repeat constructor].
  intros y z Hy ->%list_elem_of_singleton. rewrite elem_of_reverse in Hy.
  rewrite Forall_forall in Hx. unfold flip. by apply Hx.
Qed.

(** The blobs from the newest key down. *)
Lemma sortedBackups_sorted blobs : StronglySorted (flip notNewer) (sortedBackups blobs).
Proof. apply reverse_sorted, sortBy_sorted. Qed.

Lemma sortedBackups_perm blobs : sortedBackups blobs ≡ₚ blobs.
Proof. unfold sortedBackups. by rewrite reverse_Permutation, sortBy_perm. Qed.

(** X8: [removeOldBackups] deletes nothing from a container that holds
    [maxItems] blobs or fewer; from a larger one it deletes all but
    [maxItems], and no blob it deletes has a key above the key of a blob it
    keeps; the deletions go from the newer key to the older. *)
Theorem old_backups_are_removed_newest_kept (blobs : list Blob) (maxItems : nat) :
  ∃ removed : list Blob,
    removeOldBackups blobs maxItems = name <$> removed
    ∧ keptBackups blobs maxItems ++ removed ≡ₚ blobs
    ∧ length (keptBackups blobs maxItems) = min (length blobs) maxItems
    ∧ length removed = (length blobs - maxItems)%nat
    ∧ (∀ k r, k ∈ keptBackups blobs maxItems → r ∈ removed → notNewer r k)
    ∧ StronglySorted (flip notNewer) removed.
Proof.
  unfold removeOldBackups, keptBackups. case_decide as Hlen.
  - exists (drop maxItems (sortedBackups blobs)).
    pose proof (sortedBackups_sorted blobs) as Hsorted.
    rewrite <- (take_drop maxItems (sortedBackups blobs)) in Hsorted.
    apply StronglySorted_app in Hsorted as (Hcross & _ & Hdrop).
    assert (length (sortedBackups blobs) = length blobs) as Hl
      by (by rewrite sortedBackups_perm).
    split_and!; [done| | | |by intros k r ? ?; apply Hcross|done].
    + by rewrite take_drop, sortedBackups_perm.
    + rewrite length_take, Hl. lia.
    + by rewrite length_drop, Hl.
  - exists []. split_and!; [done|by rewrite app_nil_r|lia|cbn; lia| |constructor].
    by intros k r _ ?%elem_of_nil.
Qed.

Lemma newestBackup_Some backups b :
  newestBackup backups = Some b →
  b ∈ backups ∧ (∀ b', b' ∈ backups → notNewer b' b)
  ∧ ∃ rest, sortedBackups backups = b :: rest.
Proof.
  unfold newestBackup. intros [rest Hs]%head_Some.
  pose proof (sortedBackups_sorted backups) as Hsorted.
  pose proof (sortedBackups_perm backups) as Hperm.
  rewrite Hs in Hsorted, Hperm. apply StronglySorted_cons in Hsorted as [Hall _].
  split_and!; [| |by eauto].
  - rewrite <- Hperm. by left.
  - intros b' Hb'. rewrite <- Hperm in Hb'.
    apply elem_of_cons in Hb' as [->|Hb']; [apply leb_refl|].
    rewrite Forall_forall in Hall. by apply Hall.
Qed.

(** X9: [copyMostRecentBlob] copies a blob whose key no blob of the
    container exceeds, to the name made of the stamp and [.tar]; on an empty
    container it throws before any copy; and the blob it would copy is among
    those [removeOldBackups] keeps, as soon as one blob is kept. *)
Theorem newest_backup_is_copied (backups : list Blob) (stamp : string) :
  (copyMostRecentBlob backups stamp = None ↔ backups = [])
  ∧ (∀ src dst, copyMostRecentBlob backups stamp = Some (src, dst) →
       dst = (stamp ++ ".tar")%string
       ∧ ∃ b, b ∈ backups ∧ name b = src ∧ ∀ b', b' ∈ backups → notNewer b' b)
  ∧ (∀ b maxItems, newestBackup backups = Some b → (0 < maxItems)%nat →
       b ∈ keptBackups backups maxItems).
Proof.
  split_and!.
  - unfold copyMostRecentBlob, newestBackup. split.
    + destruct (head _) eqn:Hh; [done|]. intros _.
      apply head_None in Hh. apply Permutation_nil_r.
      by rewrite <- (sortedBackups_perm backups), Hh.
    + by intros ->.
  - unfold copyMostRecentBlob. intros src dst.
    destruct (newestBackup backups) as [b|] eqn:Hn; [|done]. intros [= <- <-].
    apply newestBackup_Some in Hn as (Hin & Hmax & _). eauto.
  - intros b maxItems (Hin & _ & rest & Hs)%newestBackup_Some Hpos.
    unfold keptBackups. case_decide; [|done]. rewrite Hs.
    destruct maxItems; [lia|]. by left.
Qed.

Lemma index_dot_cons c s :
  String.index 0 "." (String c s)
    = if decide (c = "."%char) then Some 0%nat else S <$> String.index 0 "." s.
Proof.
  cbn -[Ascii.ascii_dec]. destruct (Ascii.ascii_dec "." c) as [<-|Hc].
  - rewrite decide_True by done. by destruct s.
  - rewrite decide_False by congruence. by destruct (String.index 0 "." s).
Qed.

Lemma append_nil s : ("" ++ s)%string = s.
Proof. reflexivity. Qed.

Lemma append_cons c s t : (String c s ++ t)%string = String c (s ++ t)%string.
Proof. reflexivity. Qed.

Lemma index_dot_stem stem rest :
  "."%char ∉ String.list_ascii_of_string stem →
  String.index 0 "." (stem ++ "." ++ rest)%string = Some (String.length stem).
Proof.
  induction stem as [|c stem IH]; intros Hno.
  - rewrite append_nil, append_cons, index_dot_cons. by rewrite decide_True.
  - cbn [String.list_ascii_of_string] in Hno.
    apply not_elem_of_cons in Hno as [Hc Hno].
    rewrite append_cons, index_dot_cons, decide_False by done. by rewrite (IH Hno).
Qed.

Lemma index_dot_none s :
  "."%char ∉ String.list_ascii_of_string s → String.index 0 "." s = None.
Proof.
  induction s as [|c s IH]; intros Hno; [done|].
  cbn [String.list_ascii_of_string] in Hno. apply not_elem_of_cons in Hno as [Hc Hno].
  rewrite index_dot_cons, decide_False by done. by rewrite (IH Hno).
Qed.

Lemma substring_stem stem rest :
  String.substring 0 (String.length stem) (stem ++ rest)%string = stem.
Proof.
  induction stem as [|c stem IH]; [rewrite append_nil; by destruct rest|].
  rewrite append_cons. cbn. by rewrite IH.
Qed.

Lemma leb_empty s : String.leb "" s = true.
Proof. by destruct s. Qed.

(** X10: the sort key of a blob is its name up to the first dot; the key of
    a name without a dot is empty, so that such a blob counts as older than
    any other and is the first to go. *)
Theorem blob_key_is_the_name_up_to_the_first_dot :
  (∀ stem rest, "."%char ∉ String.list_ascii_of_string stem →
     blobKey (mkBlob (stem ++ "." ++ rest)) = stem)
  ∧ (∀ n, "."%char ∉ String.list_ascii_of_string n →
       blobKey (mkBlob n) = "" ∧ ∀ b, notNewer (mkBlob n) b).
Proof.
  split.
  - intros stem rest Hno. unfold blobKey. cbn [name].
    rewrite (index_dot_stem _ _ Hno). apply substring_stem.
  - intros n Hno.
    assert (blobKey (mkBlob n) = "") as Hkey
      by (unfold blobKey; cbn [name]; by rewrite (index_dot_none _ Hno)).
    split; [done|]. intros b. unfold notNewer. rewrite Hkey. apply leb_empty.
Qed.

Lemma isDigit_value c :
  isDigit c = true → (48 ≤ N_of_ascii c ∧ N_of_ascii c - 48 ≤ 9)%N.
Proof.
  unfold isDigit, nat_of_ascii. intros [H1 H2]%andb_prop.
  apply Nat.leb_le in H1, H2. lia.
Qed.

Lemma stampValue_acc s acc :
  stampValue acc s = (acc * 10 ^ N.of_nat (String.length s) + stampValue 0 s)%N.
Proof.
  revert acc. induction s as [|c s IH]; intros acc.
  - cbn. lia.
  - cbn [stampValue String.length]. rewrite IH, (IH (10 * 0 + _)%N).
    rewrite Nat2N.inj_succ, N.pow_succ_r'. ring.
Qed.

Lemma stampValue_bound s :
  allDigits s = true → (stampValue 0 s < 10 ^ N.of_nat (String.length s))%N.
Proof.
  induction s as [|c s IH]; [by cbn|].
  cbn [allDigits stampValue String.length]. intros [Hc Hs]%andb_prop.
  apply isDigit_value in Hc as [_ Hc]. specialize (IH Hs).
  rewrite stampValue_acc, Nat2N.inj_succ, N.pow_succ_r'. nia.
Qed.

Lemma stamp_compare s1 s2 :
  allDigits s1 = true → allDigits s2 = true → String.length s1 = String.length s2 →
  String.compare s1 s2 = (stampValue 0 s1 ?= stampValue 0 s2)%N.
Proof.
  revert s2. induction s1 as [|a s1 IH]; intros [|b s2]; try done.
  cbn [allDigits stampValue String.length String.compare].
  intros [Ha H1]%andb_prop [Hb H2]%andb_prop [= Hlen].
  apply isDigit_value in Ha as [Ha Ha'], Hb as [Hb Hb'].
  pose proof (stampValue_bound _ H1) as B1. pose proof (stampValue_bound _ H2) as B2.
  rewrite <- Hlen in B2.
  rewrite (stampValue_acc s1), (stampValue_acc s2), <- Hlen.
  set (p := (10 ^ N.of_nat (String.length s1))%N) in *.
  unfold Ascii.compare.
  destruct (N.compare_spec (N_of_ascii a) (N_of_ascii b)) as [Hab|Hab|Hab].
  - rewrite Hab, (IH _ H1 H2 Hlen).
    destruct (N.compare_spec (stampValue 0 s1) (stampValue 0 s2)) as [Hv|Hv|Hv].
    + symmetry. apply N.compare_eq_iff. lia.
    + symmetry. apply N.compare_lt_iff. lia.
    + symmetry. apply N.compare_gt_iff. lia.
  - symmetry. apply N.compare_lt_iff.
    assert (N_of_ascii a - 48 + 1 ≤ N_of_ascii b - 48)%N as Hd by lia.
    revert Hd. generalize (N_of_ascii a - 48)%N (N_of_ascii b - 48)%N. intros da db Hd.
    assert ((da + 1) * p ≤ db * p)%N by (by apply N.mul_le_mono_r). lia.
  - symmetry. apply N.compare_gt_iff.
    assert (N_of_ascii b - 48 + 1 ≤ N_of_ascii a - 48)%N as Hd by lia.
    revert Hd. generalize (N_of_ascii a - 48)%N (N_of_ascii b - 48)%N. intros da db Hd.
    assert ((db + 1) * p ≤ da * p)%N by (by apply N.mul_le_mono_r). lia.
Qed.

(** X11: for two blobs whose keys are stamps of digits of one width, the
    order of [sortBy] is the order of the numbers the stamps write, that is
    the order in time of [YYYYMMDDHHmmssSSS]. *)
Theorem stamps_sort_in_time_order (a b : Blob) :
  allDigits (blobKey a) = true → allDigits (blobKey b) = true →
  String.length (blobKey a) = String.length (blobKey b) →
  notNewer a b ↔ (stampValue 0 (blobKey a) ≤ stampValue 0 (blobKey b))%N.
Proof.
  intros Ha Hb Hlen. unfold notNewer, String.leb.
  rewrite (stamp_compare _ _ Ha Hb Hlen).
  destruct (N.compare_spec (stampValue 0 (blobKey a)) (stampValue 0 (blobKey b)));
    split; intros; try done; lia.
Qed.

Import Examples.B.

Example daily_rotation :
  removeOldBackups daily maxDailyCopies
    = ["20180102010000000.tar"; "20180101010000000.tar"; "README"]
  ∧ name <$> keptBackups daily maxDailyCopies
    = ["20180109010000000.tar"; "20180108010000000.tar"; "20180107010000000.tar";
       "20180106010000000.tar"; "20180105010000000.tar"; "20180104010000000.tar";
       "20180103010000000.tar"].
Proof. split; reflexivity. Qed.

Lemma newest_backup_is_copied_witness :
  copyMostRecentBlob daily "20180110030000"
    = Some ("20180109010000000.tar", "20180110030000.tar")
  ∧ mkBlob "20180109010000000.tar" ∈ keptBackups daily maxWeeklyCopies
  ∧ copyMostRecentBlob [] "20180110030000" = None.
Proof.
  destruct (newest_backup_is_copied daily "20180110030000") as (_ & _ & Hkept).
  destruct (newest_backup_is_copied [] "20180110030000") as (Hnone & _ & _).
  split_and!; [reflexivity| |by apply Hnone].
  apply Hkept; [reflexivity|]. unfold maxWeeklyCopies. lia.
Defined.

Lemma blob_key_is_the_name_up_to_the_first_dot_witness :
  blobKey (mkBlob "20180109010000000.tar.gz") = "20180109010000000"
  ∧ blobKey (mkBlob "README") = "".
Proof.
  destruct blob_key_is_the_name_up_to_the_first_dot as [Hstem Hnone].
  split.
  - apply (Hstem "20180109010000000" "tar.gz").
    apply (bool_decide_unpack _). vm_compute. exact I.
  - apply Hnone. apply (bool_decide_unpack _). vm_compute. exact I.
Defined.

Lemma stamps_sort_in_time_order_witness :
  notNewer (mkBlob "20171231235959999.tar") (mkBlob "20180101000000000.tar").
Proof.
  apply stamps_sort_in_time_order; [reflexivity..|]. vm_compute. discriminate.
Defined.

End BackupFacts.


(** * Properties of the scan runner *)

Module RunnerFacts.
Import Runner.

Section Run.
Context {V : Type} (stringifyError : string → option string → string)
  (stringify : V → option string) (ownStack : option string).

#[local] Abbreviation run := (Runner.run stringifyError stringify ownStack).

Lemma createErrorResult_fields (err : Thrown V) :
  ok (createErrorResult stringifyError stringify err) = Some false
  ∧ messages (createErrorResult stringifyError stringify err) = None.
Proof. by destruct err. Qed.

(** X12: the result the runner sends always has [ok] set, never [null]; it
    is [ok: true] exactly when the configuration loaded, the resources
    loaded with none missing and none incompatible, the engine and the URL
    were built and the engine returned, and then it carries the messages of
    the engine and no error; any other run sends [ok: false] without
    messages, and missing or incompatible resources are reported as such
    without the engine being run. *)
Theorem runner_reports_one_outcome (calls : Calls V) :
  (ok (run calls) = Some true ∨ ok (run calls) = Some false)
  ∧ (ok (run calls) = Some true ↔
       ∃ resources msgs,
         fromConfig calls = Returned () ∧ loadResources calls = Returned resources
         ∧ missing resources = [] ∧ incompatible resources = []
         ∧ newEngine calls = Returned () ∧ newURL calls = Returned ()
         ∧ executeOn calls = Returned msgs)
  ∧ (∀ msgs, ok (run calls) = Some true → executeOn calls = Returned msgs →
       run calls = mkJobResult None (Some msgs) (Some true))
  ∧ (ok (run calls) = Some false → messages (run calls) = None)
  ∧ (∀ resources,
       fromConfig calls = Returned () → loadResources calls = Returned resources →
       missing resources ≠ [] ∨ incompatible resources ≠ [] →
       run calls = mkJobResult (Some (stringifyError (missingResources resources) ownStack))
                     None (Some false)).
Proof.
  assert (∀ err : Thrown V,
            ok (createErrorResult stringifyError stringify err) = Some true → False) as Hnot.
  { intros err Hok. by destruct (createErrorResult_fields err) as [Hf _]; congruence. }
  unfold Runner.run.
  destruct (fromConfig calls) as [[]|e1] eqn:H1; cycle 1.
  { destruct (createErrorResult_fields e1) as [Hok Hm].
    split_and!; [by right| |intros ? []%Hnot|done|by intros].
    split; [by intros []%Hnot|by intros (? & ? & ? & _)]. }
  destruct (loadResources calls) as [resources|e2] eqn:H2; cycle 1.
  { destruct (createErrorResult_fields e2) as [Hok Hm].
    split_and!; [by right| |intros ? []%Hnot|done|by intros].
    split; [by intros []%Hnot|by intros (? & ? & _ & ? & _)]. }
  case_bool_decide as Hres.
  { assert (missing resources ≠ [] ∨ incompatible resources ≠ []) as Hne.
    { destruct Hres as [Hl|Hl]; [left|right]; intros Heq; rewrite Heq in Hl; cbn in Hl; lia. }
    split_and!; [by right| |done|done|by intros ? _ [= <-] _].
    split; [done|]. intros (r & ? & _ & [= <-] & Hm & Hi & _).
    destruct Hne; congruence. }
  assert (missing resources = [] ∧ incompatible resources = []) as [Hmis Hinc].
  { destruct resources as [[|] [|]]; cbn in *; try done; exfalso; apply Hres; lia. }
  destruct (newEngine calls) as [[]|e3] eqn:H3; cycle 1.
  { destruct (createErrorResult_fields e3) as [Hok Hm].
    split_and!; [by right| |intros ? []%Hnot|done|].
    - split; [by intros []%Hnot|by intros (? & ? & _ & _ & _ & _ & ? & _)].
    - intros r _ [= <-] [?|?]; congruence. }
  destruct (newURL calls) as [[]|e4] eqn:H4; cycle 1.
  { destruct (createErrorResult_fields e4) as [Hok Hm].
    split_and!; [by right| |intros ? []%Hnot|done|].
    - split; [by intros []%Hnot|by intros (? & ? & _ & _ & _ & _ & _ & ? & _)].
    - intros r _ [= <-] [?|?]; congruence. }
  destruct (executeOn calls) as [msgs|e5] eqn:H5; cycle 1.
  { destruct (createErrorResult_fields e5) as [Hok Hm].
    split_and!; [by right| |intros ? []%Hnot|done|].
    - split; [by intros []%Hnot|by intros (? & ? & _ & _ & _ & _ & _ & _ & ?)].
    - intros r _ [= <-] [?|?]; congruence. }
  cbn. split_and!; [by left| |by intros ? _ [= <-]|done|].
  - split; [|done]. intros _. by exists resources, msgs.
  - intros r _ [= <-] [?|?]; congruence.
Qed.

End Run.

Import Examples.R.

Lemma runner_reports_one_outcome_witness :
  Runner.run describe Some None callsMissing
    = mkJobResult
        (Some (describe (missingResources (mkResources ["hint-axe"] [])) None))
        None (Some false)
  ∧ ok (Runner.run describe Some None callsFine) = Some true.
Proof.
  destruct (runner_reports_one_outcome describe Some None callsMissing)
    as (_ & _ & _ & _ & Hmissing).
  destruct (runner_reports_one_outcome describe Some None callsFine)
    as (_ & Hok & _).
  split.
  - apply Hmissing; [reflexivity..|]. left. discriminate.
  - apply Hok. exists (mkResources [] []), [Examples.W.engineMessage "axe" "Warning 1 axe"].
    by split_and!.
Defined.

End RunnerFacts.
